(** * distributed-scheduler: the scheduling engine of [app.py]

    A shallow embedding of the job scheduler of [src/app.py]: the in-memory
    [jobs] dictionary and [heap], the SQLite table behind [persist_job] and
    [load_jobs_at_start], one iteration of [scheduler_loop], [execute_job]
    and the two mutating HTTP handlers [create_job] and [delete_job].

    Conventions of the embedding.
    - Timestamps ([time.time()], [run_at], [delay], [interval]) are taken on
      a discrete clock and are integers [Z] (seconds); nothing below depends
      on fractions of a second.
    - A job dictionary is shared by reference between [jobs] and the thread
      that executes it.  The embedding keeps every job in [jobs] only and lets
      a thread name its job by the key under which [jobs] holds it, so a write
      through either alias is one write.
    - Every handler, every iteration of the scheduler loop and every run of
      [execute_job] is one atomic step; a run of the program is a list of such
      steps.  The state between the two commits of a successful run of
      [execute_job] is looked at on its own ([mark_done], [reschedule]).
    - The steps take the numbers of a request as integers of the clock.
      What [float()] does to the numbers of a body, rounding and raising, is
      followed in [create_job_json]. *)

From Stdlib Require Import ZArith Lia String Ascii.
From stdpp Require Import base gmap strings list fin_maps sorting.

Open Scope Z_scope.

(** ** Data model *)

(** The values the [status] text takes in the specification.  [app.py] itself
    writes only ['scheduled'], ['done'], ['cancelled'] and ['dead']. *)
Inductive Status : Set :=
  | scheduled
  | running
  | done
  | cancelled
  | dead.

#[global] Instance Status_eq_dec : EqDecision Status.
Proof. solve_decision. Defined.

(** The job dictionary built in [create_job] and [load_jobs_at_start]. *)
Record Job : Set := mkJob {
  id : string;
  run_at : Z;
  payload : string;
  status : Status;
  retries : Z;
  recurring : bool;
  interval : Z
}.

#[global] Instance Job_eq_dec : EqDecision Job.
Proof. solve_decision. Defined.

(** [job['status'] = v], [job['run_at'] = v], [job['retries'] = v]. *)
Definition set_status (v : Status) (j : Job) : Job :=
  mkJob (id j) (run_at j) (payload j) v (retries j) (recurring j) (interval j).

Definition set_run_at (v : Z) (j : Job) : Job :=
  mkJob (id j) v (payload j) (status j) (retries j) (recurring j) (interval j).

Definition set_retries (v : Z) (j : Job) : Job :=
  mkJob (id j) (run_at j) (payload j) (status j) v (recurring j) (interval j).

(** A row of the table [jobs] without its primary key [id]:
    [(run_at, payload, status, retries, recurring, interval)], where
    [recurring] is stored as an INTEGER. *)
Record Row : Set := mkRow {
  row_run_at : Z;
  row_payload : string;
  row_status : Status;
  row_retries : Z;
  row_recurring : Z;
  row_interval : Z
}.

#[global] Instance Row_eq_dec : EqDecision Row.
Proof. solve_decision. Defined.

(** The tuple bound to the [REPLACE INTO] statement of [persist_job]:
    [int(job.get('recurring', 0))] is [Z.b2z]. *)
Definition row_of_job (j : Job) : Row :=
  mkRow (run_at j) (payload j) (status j) (retries j)
        (Z.b2z (recurring j)) (interval j).

(** The dictionary [load_jobs_at_start] builds from a fetched row:
    [bool(row[5])] is "not zero". *)
Definition job_of_row (k : string) (r : Row) : Job :=
  mkJob k (row_run_at r) (row_payload r) (row_status r) (row_retries r)
        (negb (row_recurring r =? 0)) (row_interval r).

(** An entry of the heap: the tuple [(run_at, job_id)]. *)
Definition Entry : Set := (Z * string)%type.

(** ** [heapq]

    The source keeps [heap] in order with [heapq.heappush] and
    [heapq.heappop] of Python's standard library.  They are embedded as they
    are written there: the heap is a list used as an array, the children of
    index [pos] are at [2*pos + 1] and [2*pos + 2], and [heap[0]] is the
    item the next [heappop] returns.  Tuples compare as Python compares
    them: by [run_at], and for equal [run_at] by the [job_id] strings,
    character by character. *)

(** [x < y] on tuples [(run_at, job_id)]. *)
Definition entry_ltb (x y : Entry) : bool :=
  (x.1 <? y.1) || ((x.1 =? y.1) && String.ltb x.2 y.2).

(** [not y < x]. *)
Definition entry_le (x y : Entry) : Prop := entry_ltb y x = false.

(** The [while pos > startpos] loop of [_siftdown], which moves parents down
    until [newitem] fits; [pos] decreases at every iteration, so [fuel = pos]
    iterations are enough. *)
Fixpoint siftdown_loop (fuel : nat) (heap : list Entry) (startpos pos : nat)
    (newitem : Entry) : list Entry :=
  match fuel with
  | O => <[pos := newitem]> heap
  | S fuel =>
      if (startpos <? pos)%nat then
        let parentpos := ((pos - 1) / 2)%nat in
        match heap !! parentpos with
        | Some parent =>
            if entry_ltb newitem parent
            then siftdown_loop fuel (<[pos := parent]> heap) startpos parentpos
                               newitem
            else <[pos := newitem]> heap
        | None => <[pos := newitem]> heap
        end
      else <[pos := newitem]> heap
  end.

(** [_siftdown(heap, startpos, pos)]. *)
Definition _siftdown (heap : list Entry) (startpos pos : nat) : list Entry :=
  match heap !! pos with
  | Some newitem => siftdown_loop pos heap startpos pos newitem
  | None => heap
  end.

(** The index of the smaller child: [rightpos] replaces [childpos] when
    [rightpos < endpos and not heap[childpos] < heap[rightpos]]. *)
Definition smaller_child (heap : list Entry) (endpos childpos : nat) : nat :=
  let rightpos := (childpos + 1)%nat in
  match (rightpos <? endpos)%nat, heap !! childpos, heap !! rightpos with
  | true, Some l, Some r => if entry_ltb l r then childpos else rightpos
  | _, _, _ => childpos
  end.

(** The [while childpos < endpos] loop of [_siftup], which bubbles the
    smaller child up until a leaf is reached; it returns the heap and the
    position of the leaf.  [pos] increases at every iteration. *)
Fixpoint siftup_loop (fuel : nat) (heap : list Entry) (endpos pos : nat)
    : list Entry * nat :=
  match fuel with
  | O => (heap, pos)
  | S fuel =>
      let childpos := (2 * pos + 1)%nat in
      if (childpos <? endpos)%nat then
        let childpos := smaller_child heap endpos childpos in
        match heap !! childpos with
        | Some child => siftup_loop fuel (<[pos := child]> heap) endpos childpos
        | None => (heap, pos)
        end
      else (heap, pos)
  end.

(** [_siftup(heap, pos)]. *)
Definition _siftup (heap : list Entry) (pos : nat) : list Entry :=
  let endpos := length heap in
  let startpos := pos in
  match heap !! pos with
  | Some newitem =>
      let '(heap, pos) := siftup_loop endpos heap endpos pos in
      let heap := <[pos := newitem]> heap in
      _siftdown heap startpos pos
  | None => heap
  end.

(** [heappush(heap, item)]. *)
Definition heappush (heap : list Entry) (item : Entry) : list Entry :=
  let heap := heap ++ [item] in
  _siftdown heap 0 (length heap - 1).

(** [heappop(heap)]: the returned item and the heap it leaves; [None] is the
    [IndexError] of [heap.pop()] on an empty heap. *)
Definition heappop (heap : list Entry) : option (Entry * list Entry) :=
  match last heap with
  | None => None
  | Some lastelt =>
      let heap := removelast heap in
      match heap with
      | [] => Some (lastelt, [])
      | returnitem :: _ =>
          Some (returnitem, _siftup (<[0%nat := lastelt]> heap) 0)
      end
  end.

(** [heap[0]], guarded in the source by [if heap and ...]. *)
Definition heap0 (h : list Entry) : option Entry := head h.

(** ** Program state *)

(** [jobs] and [heap] are the module's globals; [db] is the table [jobs] of
    the SQLite file and [db_log] the sequence of rows written to it, oldest
    first; [threads] lists, in the order they were started, the jobs handed to
    an [execute_job] thread that has not finished. *)
Record State : Type := mkState {
  jobs : gmap string Job;
  heap : list Entry;
  db : gmap string Row;
  db_log : list (string * Row);
  threads : list string
}.

(** Assignments to one global. *)
Definition with_jobs (m : gmap string Job) (s : State) : State :=
  mkState m (heap s) (db s) (db_log s) (threads s).

Definition with_heap (h : list Entry) (s : State) : State :=
  mkState (jobs s) h (db s) (db_log s) (threads s).

Definition with_threads (t : list string) (s : State) : State :=
  mkState (jobs s) (heap s) (db s) (db_log s) t.

(** The process as it starts on a database file holding the table [t]:
    [heap = []], [jobs = {}], no thread. *)
Definition init_state (t : gmap string Row) : State :=
  mkState ∅ [] t [] [].

(** ** Persistence *)

(** [persist_job(job)]: [REPLACE INTO jobs ...] keyed by the job's [id]. *)
Definition persist_job (j : Job) (s : State) : State :=
  mkState (jobs s) (heap s)
          (<[id j := row_of_job j]> (db s))
          (db_log s ++ [(id j, row_of_job j)])
          (threads s).

(** The rows fetched by
    [SELECT ... FROM jobs WHERE status != "done"]. *)
Definition select_not_done (t : gmap string Row) : list (string * Row) :=
  filter (λ kr, row_status kr.2 ≠ done) (map_to_list t).

(** The body of the [for row in rows] loop. *)
Definition load_row (s : State) (kr : string * Row) : State :=
  let job := job_of_row kr.1 kr.2 in
  let s := with_jobs (<[id job := job]> (jobs s)) s in
  with_heap (heappush (heap s) (run_at job, id job)) s.

Definition load_jobs_at_start (s : State) : State :=
  foldl load_row s (select_not_done (db s)).

(** The boot sequence up to the start of the scheduler thread. *)
Definition boot (t : gmap string Row) : State :=
  load_jobs_at_start (init_state t).

(** ** Scheduler loop and executor *)

(** [threading.Thread(target=execute_job, args=(next_job,)).start()]. *)
Definition start_thread (k : string) (s : State) : State :=
  with_threads (threads s ++ [k]) s.

(** One iteration of the [while True] loop of [scheduler_loop], at
    [now = time.time()].  When nothing is dispatched the loop sleeps, which
    leaves the state as it is. *)
Definition scheduler_loop (now : Z) (s : State) : State :=
  match heap0 (heap s) with
  | Some top =>
      if top.1 <=? now then
        match heappop (heap s) with
        | Some ((_, job_id), h') =>
            let s := with_heap h' s in
            match jobs s !! job_id with
            | Some _ => start_thread job_id s
            | None => s
            end
        | None => s
        end
      else s
  | None => s
  end.

(** What the work inside the [try] block does: it returns, or it raises and
    control passes to the [except] branch.  (The source's placeholder
    [time.sleep(0.5)] stands for the real work.) *)
Inductive Outcome : Set := Success | Failure.

#[global] Instance Outcome_eq_dec : EqDecision Outcome.
Proof. solve_decision. Defined.

(** Removes the first occurrence of [k]: the thread has returned. *)
Fixpoint end_thread (k : string) (t : list string) : list string :=
  match t with
  | [] => []
  | k' :: t' => if decide (k' = k) then t' else k' :: end_thread k t'
  end.

(** A write [job[...] = v] through the thread's reference, which is the
    dictionary held by [jobs] under [k]. *)
Definition update_job (k : string) (f : Job → Job) (s : State) : State :=
  with_jobs (alter f k (jobs s)) s.

(** [execute_job(job)] for the thread whose [job] is [jobs[k]]; [now] is the
    value of the one [time.time()] call the run makes. *)
Definition execute_job (o : Outcome) (now : Z) (k : string) (s : State) : State :=
  let s := with_threads (end_thread k (threads s)) s in
  match jobs s !! k with
  | None => s
  | Some job =>
      let job_id := id job in
      match o with
      | Success =>
          let job := set_status done job in
          let s := update_job k (set_status done) s in
          let s := persist_job job s in
          if recurring job then
            let job := set_run_at (now + interval job) job in
            let s := update_job k (set_run_at (now + interval job)) s in
            let job := set_status scheduled job in
            let s := update_job k (set_status scheduled) s in
            let s := with_heap (heappush (heap s) (run_at job, job_id)) s in
            persist_job job s
          else s
      | Failure =>
          let job := set_retries (retries job + 1) job in
          let s := update_job k (set_retries (retries job)) s in
          if retries job <=? 3 then
            let job := set_status scheduled job in
            let s := update_job k (set_status scheduled) s in
            let job := set_run_at (now + 2) job in
            let s := update_job k (set_run_at (now + 2)) s in
            let s := with_heap (heappush (heap s) (run_at job, job_id)) s in
            persist_job job s
          else
            let job := set_status dead job in
            let s := update_job k (set_status dead) s in
            persist_job job s
      end
  end.

(** ** HTTP handlers *)

(** The JSON body of [POST /jobs]; a key that is absent is [None] and takes
    the default of its [data.get].  The numbers are integers on the discrete
    clock, taken as they are; what [float()] makes of the numbers of a body
    is followed in [create_job_json] below. *)
Record CreateRequest : Set := mkRequest {
  req_delay : option Z;
  req_payload : option string;
  req_recurring : option bool;
  req_interval : option Z
}.

Inductive Response : Set :=
  | Created (job_id : string) (at_time : Z)   (* 201, {'id', 'run_at'} *)
  | NotFound                                  (* 404, {'error': 'not found'} *)
  | Ok                                        (* 200, {'ok': True} *)
  | ServerError.                              (* 500, an exception left the handler *)

#[global] Instance Response_eq_dec : EqDecision Response.
Proof. solve_decision. Defined.

(** [create_job()], at [now = time.time()] and with [job_id] the string of the
    UUID it draws. *)
Definition create_job (now : Z) (job_id : string) (data : CreateRequest)
    (s : State) : State * Response :=
  let delay := default 0 (req_delay data) in
  let run_at := now + delay in
  let job := mkJob job_id run_at (default EmptyString (req_payload data)) scheduled 0
                   (default false (req_recurring data))
                   (default 0 (req_interval data)) in
  let s := with_jobs (<[job_id := job]> (jobs s)) s in
  let s := with_heap (heappush (heap s) (run_at, job_id)) s in
  let s := persist_job job s in
  (s, Created job_id run_at).

(** [delete_job(job_id)]. *)
Definition delete_job (job_id : string) (s : State) : State * Response :=
  match jobs s !! job_id with
  | None => (s, NotFound)
  | Some job =>
      let job := set_status cancelled job in
      let s := update_job job_id (set_status cancelled) s in
      let s := persist_job job s in
      (s, Ok)
  end.

(** [get_job(job_id)]. *)
Definition get_job (job_id : string) (s : State) : option Job :=
  jobs s !! job_id.

(** ** Runs of the program *)

(** The atomic steps of a running process. *)
Inductive Op : Set :=
  | OpCreate (now : Z) (job_id : string) (data : CreateRequest)
  | OpCancel (job_id : string)
  | OpTick (now : Z)
  | OpFinish (job_id : string) (o : Outcome) (now : Z).

(** The state a step leaves. *)
Definition step (op : Op) (s : State) : State :=
  match op with
  | OpCreate now k data => (create_job now k data s).1
  | OpCancel k => (delete_job k s).1
  | OpTick now => scheduler_loop now s
  | OpFinish k o now => execute_job o now k s
  end.

(** A step can happen in [s]: the UUID drawn by [create_job] is fresh, and
    only a thread that was started can finish. *)
Definition enabled (op : Op) (s : State) : bool :=
  match op with
  | OpCreate _ k _ => bool_decide (jobs s !! k = None)
  | OpCancel _ => true
  | OpTick _ => true
  | OpFinish k _ _ => bool_decide (k ∈ threads s)
  end.

(** The state after the steps [ops], and whether each of them could happen
    in the state it was taken in. *)
Definition run (ops : list Op) (s : State) : State :=
  foldl (λ s op, step op s) s ops.

Fixpoint valid (ops : list Op) (s : State) : bool :=
  match ops with
  | [] => true
  | op :: ops' => enabled op s && valid ops' (step op s)
  end.

(** ** Observations *)

(** Number of heap entries whose [job_id] is [k]. *)
Definition count_id (k : string) (h : list Entry) : nat :=
  length (filter (λ e : Entry, e.2 = k) h).

(** Number of pending heap entries of job [k]. *)
Definition pending (s : State) (k : string) : nat := count_id k (heap s).

(** Number of occurrences of [k] in a list of threads. *)
Definition count_thread (k : string) (t : list string) : nat :=
  length (filter (λ k' : string, k' = k) t).

(** Number of unfinished [execute_job] threads working on [jobs[k]]. *)
Definition inflight (s : State) (k : string) : nat := count_thread k (threads s).

(** The status a [GET /jobs/k] shows. *)
Definition job_status (s : State) (k : string) : option Status :=
  status <$> jobs s !! k.

(** ** The rest of the module *)

(** [init_db()]: [CREATE TABLE IF NOT EXISTS jobs].  [None] is a database
    file that has no table [jobs] yet; a table that exists is left as it
    is. *)
Definition init_db (file : option (gmap string Row)) : gmap string Row :=
  default ∅ file.

(** The block under [if __name__ == '__main__'], up to the start of the
    scheduler thread: [init_db()], then [load_jobs_at_start()]. *)
Definition main (file : option (gmap string Row)) : State :=
  load_jobs_at_start (init_state (init_db file)).

(** The process is stopped, at a point between two steps, and started again
    on the database file it leaves. *)
Definition restart (s : State) : State := main (Some (db s)).

(** [list_jobs()]: the values of [jobs].  Python lists them in the order of
    insertion; the listing is taken here as a collection and its order is
    left open. *)
Definition list_jobs (s : State) : list Job := (map_to_list (jobs s)).*2.

(** Iterations of the [while True] loop of [scheduler_loop] that follow one
    another with no other step in between; [nows] are the readings of the
    clock. *)
Definition iterations (nows : list Z) (s : State) : State :=
  foldl (λ s now, scheduler_loop now s) s nows.

(** ** A successful run of [execute_job], commit by commit

    A successful run of [execute_job] on a recurring job writes the table
    twice.  [mark_done] is the run up to and including its first
    [persist_job]: the job is ['done'] in [jobs] and in the table, and the
    thread is still running.  [reschedule] is the rest of the run, at
    [now = time.time()]. *)
Definition mark_done (k : string) (s : State) : State :=
  match jobs s !! k with
  | None => s
  | Some job =>
      let job := set_status done job in
      let s := update_job k (set_status done) s in
      persist_job job s
  end.

Definition reschedule (now : Z) (k : string) (s : State) : State :=
  let s := with_threads (end_thread k (threads s)) s in
  match jobs s !! k with
  | None => s
  | Some job =>
      let job_id := id job in
      if recurring job then
        let job := set_run_at (now + interval job) job in
        let s := update_job k (set_run_at (now + interval job)) s in
        let job := set_status scheduled job in
        let s := update_job k (set_status scheduled) s in
        let s := with_heap (heappush (heap s) (run_at job, job_id)) s in
        persist_job job s
      else s
  end.

(** ** [create_job] on the body as Flask hands it over

    [create_job] passes what it finds under ['delay'] and ['interval'] to
    [float()], which raises for some values; Flask answers an exception that
    leaves the handler with status 500.  The values followed here are [null],
    the booleans and the integers, of any size; a string, a number with a
    fraction, a list or an object in these places is not modelled, and
    neither is a payload that is not a string. *)
Inductive Value : Set :=
  | Null
  | Bool (b : bool)
  | Int (z : Z).

Record Body : Set := mkBody {
  body_delay : option Value;
  body_payload : option string;
  body_recurring : option bool;
  body_interval : option Value
}.

(** [float(n)] for an [int] is [PyLong_AsDouble] of CPython's
    [Objects/longobject.c], which takes the significand from
    [_PyLong_Frexp].  A double that holds an integer is written as that
    integer. *)
Definition DBL_MANT_DIG : Z := 53.
Definition DBL_MAX_EXP : Z := 1024.

(** For a digit [x], [x + half_even_correction[x & 7]] is [x] rounded to
    the nearest multiple of 4, ties going to a multiple of 8. *)
Definition half_even_correction (low : Z) : Z :=
  nth (Z.to_nat low) [0; -1; -2; 1; 0; -1; 2; 1] 0.

(** The first [DBL_MANT_DIG + 2] bits of [a], shifted left when [a] has
    fewer; when bits are shifted out, the lowest bit kept is set if any of
    them is not zero. *)
Definition x_digits (a : Z) : Z :=
  let a_bits := Z.log2 a + 1 in
  if a_bits <=? DBL_MANT_DIG + 2 then Z.shiftl a (DBL_MANT_DIG + 2 - a_bits)
  else
    let shift := a_bits - DBL_MANT_DIG - 2 in
    Z.lor (Z.shiftr a shift) (if Z.land a (Z.ones shift) =? 0 then 0 else 1).

(** [_PyLong_Frexp(a, &e)] for [a > 0]: the pair [(x, e)] stands for the
    double [x / 2^(DBL_MANT_DIG + 2) * 2^e], with [x / 2^(DBL_MANT_DIG + 2)]
    in [[0.5, 1)]; when rounding gives 1.0 the significand becomes 0.5 and
    the exponent one more. *)
Definition _PyLong_Frexp (a : Z) : Z * Z :=
  let a_bits := Z.log2 a + 1 in
  let x := x_digits a in
  let x := x + half_even_correction (Z.land x 7) in
  if x =? 2 ^ (DBL_MANT_DIG + 2) then (2 ^ (DBL_MANT_DIG + 1), a_bits + 1)
  else (x, a_bits).

(** [PyLong_AsDouble(v)]; [None] is [OverflowError: int too large to convert
    to float]. *)
Definition PyLong_AsDouble (v : Z) : option Z :=
  if v =? 0 then Some 0
  else
    let '(x, exponent) := _PyLong_Frexp (Z.abs v) in
    if DBL_MAX_EXP <? exponent then None
    else Some (Z.sgn v * Z.shiftl x (exponent - (DBL_MANT_DIG + 2))).

(** [float(v)]; [None] is the exception it raises: [TypeError] for [None],
    [OverflowError] for an integer that is too large. *)
Definition float (v : Value) : option Z :=
  match v with
  | Null => None
  | Bool b => Some (Z.b2z b)
  | Int z => PyLong_AsDouble z
  end.

(** [x + y] on doubles that hold integers: the double nearest to the sum,
    ties to the even significand; [None] when that is an infinity. *)
Definition float_add (x y : Z) : option Z := PyLong_AsDouble (x + y).

(** [create_job()] at [now = time.time()], with [job_id] the UUID it draws,
    on the body [data].  The result [None] is a [run_at] that is an infinity,
    which takes a clock reading of [2^970] seconds or more; the embedding
    keeps timestamps finite and does not follow the program there. *)
Definition create_job_json (now : Z) (job_id : string) (data : Body)
    (s : State) : option (State * Response) :=
  match float (default (Int 0) (body_delay data)) with
  | None => Some (s, ServerError)
  | Some delay =>
      match float_add now delay with
      | None => None
      | Some run_at =>
          match float (default (Int 0) (body_interval data)) with
          | None => Some (s, ServerError)
          | Some interval =>
              let job := mkJob job_id run_at
                               (default EmptyString (body_payload data))
                               scheduled 0
                               (default false (body_recurring data))
                               interval in
              let s := with_jobs (<[job_id := job]> (jobs s)) s in
              let s := with_heap (heappush (heap s) (run_at, job_id)) s in
              let s := persist_job job s in
              Some (s, Created job_id run_at)
          end
      end
  end.

(** The body whose numbers are the integers of a request. *)
Definition body_of (data : CreateRequest) : Body :=
  mkBody (Int <$> req_delay data) (req_payload data) (req_recurring data)
         (Int <$> req_interval data).

(** * Vocabulary of the properties *)

(** ** Heap order *)

(** The parent of index [i]: [(i - 1) >> 1]. *)
Definition parent (i : nat) : nat := ((i - 1) / 2)%nat.

(** The heap order: no item is smaller than its parent. *)
Definition heap_ok (h : list Entry) : Prop :=
  ∀ i c p, (0 < i)%nat → h !! i = Some c → h !! parent i = Some p → entry_le p c.

(** The heap order everywhere but around the hole at [pos]. *)
Definition ok_except (h : list Entry) (pos : nat) : Prop :=
  ∀ i c p, (0 < i)%nat → i ≠ pos → parent i ≠ pos →
    h !! i = Some c → h !! parent i = Some p → entry_le p c.

(** The children of the hole are not smaller than its parent. *)
Definition grand_ok (h : list Entry) (pos : nat) : Prop :=
  (0 < pos)%nat → ∀ i c g, (0 < i)%nat → parent i = pos →
    h !! i = Some c → h !! parent pos = Some g → entry_le g c.

(** The children of the hole are not smaller than [newitem]. *)
Definition below_ok (h : list Entry) (pos : nat) (newitem : Entry) : Prop :=
  ∀ i c, (0 < i)%nat → parent i = pos → h !! i = Some c → entry_le newitem c.

(** ** What a step leaves behind *)

(** The dictionary [create_job] builds. *)
Definition new_job (now : Z) (k : string) (data : CreateRequest) : Job :=
  mkJob k (now + default 0 (req_delay data))
        (default EmptyString (req_payload data)) scheduled 0
        (default false (req_recurring data)) (default 0 (req_interval data)).

(** The dictionary [execute_job] leaves behind. *)
Definition final_job (o : Outcome) (now : Z) (j : Job) : Job :=
  match o with
  | Success =>
      if recurring j
      then set_status scheduled (set_run_at (now + interval j) (set_status done j))
      else set_status done j
  | Failure =>
      if retries j + 1 <=? 3
      then set_run_at (now + 2) (set_status scheduled (set_retries (retries j + 1) j))
      else set_status dead (set_retries (retries j + 1) j)
  end.

(** Whether that run of [execute_job] pushes the job on the heap again. *)
Definition requeues (o : Outcome) (j : Job) : bool :=
  match o with
  | Success => recurring j
  | Failure => retries j + 1 <=? 3
  end.

(** The rows [execute_job] writes, in the order it writes them. *)
Definition writes (o : Outcome) (now : Z) (j : Job) : list (string * Row) :=
  match o with
  | Success =>
      (id j, row_of_job (set_status done j)) ::
      (if recurring j then [(id j, row_of_job (final_job Success now j))] else [])
  | Failure => [(id j, row_of_job (final_job Failure now j))]
  end.

(** ** The invariant of a running process *)

(** What holds of one job [j = jobs[k]]: its id is queued or being executed
    at most once, exactly once while its status is [scheduled], and not at
    all while its status is [done]. *)
Definition once (s : State) (k : string) (j : Job) : Prop :=
  (pending s k + inflight s k ≤ 1)%nat ∧
  (status j = scheduled → (pending s k + inflight s k)%nat = 1%nat) ∧
  (status j = done → (pending s k + inflight s k)%nat = 0%nat).

(** The invariant: jobs are filed under their id, the heap and the threads
    name known jobs only, the heap is in heap order, and every job is queued
    or executed as [once] says. *)
Record Inv (s : State) : Prop := mkInv {
  inv_id : ∀ k j, jobs s !! k = Some j → id j = k;
  inv_heap : ∀ e : Entry, e ∈ heap s → is_Some (jobs s !! e.2);
  inv_threads : ∀ k, k ∈ threads s → is_Some (jobs s !! k);
  inv_heap_ok : heap_ok (heap s);
  inv_once : ∀ k j, jobs s !! k = Some j → once s k j
}.

(** ** Steps and ids *)

(** The id a step is about, if any. *)
Definition op_target (op : Op) : option string :=
  match op with
  | OpCreate _ k _ => Some k
  | OpCancel k => Some k
  | OpTick _ => None
  | OpFinish k _ _ => Some k
  end.

(** The step is a [DELETE /jobs/k]. *)
Definition cancels (k : string) (op : Op) : bool :=
  match op with
  | OpCancel k' => bool_decide (k' = k)
  | _ => false
  end.

(** No [DELETE /jobs/k] among the steps. *)
Definition never_cancelled (k : string) (ops : list Op) : bool :=
  forallb (λ op, negb (cancels k op)) ops.

(** The id [k] is neither in the heap nor being executed. *)
Definition quiet (s : State) (k : string) : Prop :=
  pending s k = 0%nat ∧ inflight s k = 0%nat.

(** The step is the end of a run of [execute_job] on [jobs[k]] with
    outcome [o]. *)
Definition finishes (k : string) (o : Outcome) (op : Op) : bool :=
  match op with
  | OpFinish k' o' _ => bool_decide (k' = k) && bool_decide (o' = o)
  | _ => false
  end.

(** Number of runs of [execute_job] on [jobs[k]] that ended among [ops]. *)
Fixpoint attempts (k : string) (ops : list Op) : Z :=
  match ops with
  | [] => 0
  | op :: ops' =>
      (if finishes k Success op || finishes k Failure op then 1 else 0)
      + attempts k ops'
  end.

(** Number of those runs in which the work raised. *)
Fixpoint failures (k : string) (ops : list Op) : Z :=
  match ops with
  | [] => 0
  | op :: ops' => (if finishes k Failure op then 1 else 0) + failures k ops'
  end.

(** The work of job [k] raises every time it is run. *)
Definition always_fails (k : string) (ops : list Op) : bool :=
  forallb (λ op, negb (finishes k Success op)) ops.

(** What is known of [jobs[k]] after [n] failed runs, for a job created by
    this process; [pure] says that so far no run of it succeeded and no
    cancellation was issued for it. *)
Definition track (s : State) (k : string) (n : Z) (pure : bool) : Prop :=
  match jobs s !! k with
  | None => n = 0
  | Some j =>
      retries j = n ∧ 0 ≤ n ≤ 4 ∧
      (n = 4 → quiet s k) ∧
      (status j = dead → n = 4) ∧
      (pure = true → status j = if n <? 4 then scheduled else dead)
  end.

(** The job [k] starts its life in this process with [r0] retries: the
    process creates it, with none, or the startup load finds it in the table
    as [scheduled] with [r0] retries, at most 3. *)
Definition starts_with (t : gmap string Row) (k : string) (r0 : Z) : Prop :=
  match jobs (boot t) !! k with
  | None => r0 = 0
  | Some j0 => status j0 = scheduled ∧ retries j0 = r0 ∧ 0 ≤ r0 ≤ 3
  end.

(** ** The invariant as the specification states it *)

(** The invariant as the specification states it: a job is [scheduled] iff
    exactly one heap entry carries its id, and a job in any other status has
    none. *)
Definition queue_matches_status (s : State) : Prop :=
  ∀ k j, jobs s !! k = Some j →
    (status j = scheduled ↔ pending s k = 1%nat) ∧
    (status j ≠ scheduled → pending s k = 0%nat).

(** ** Scenarios *)

(** A body [{"delay": d}]. *)
Definition delay_only (d : Z) : CreateRequest := mkRequest (Some d) None None None.

(** One job ["a"] submitted with delay 0 at time 0 on an empty store. *)
Definition submitted : State := run [OpCreate 0 "a" (delay_only 0)] (boot ∅).

(** Scenario 3: the job is run four times and its work raises every time. *)
Definition four_failures : list Op :=
  [OpCreate 0 "a" (delay_only 0);
   OpTick 0; OpFinish "a" Failure 1;
   OpTick 3; OpFinish "a" Failure 4;
   OpTick 6; OpFinish "a" Failure 7;
   OpTick 9; OpFinish "a" Failure 10].

(** Scenario 4: the job is submitted with delay 60 and cancelled at once. *)
Definition submit_then_cancel : list Op :=
  [OpCreate 0 "a" (delay_only 60); OpCancel "a"].

(** A recurring job with interval 10, run once with success at time 7. *)
Definition recurring_ops : list Op :=
  [OpCreate 0 "a" (mkRequest (Some 0) None (Some true) (Some 10)); OpTick 0].

(** A table holding one job of every status. *)
Definition mixed_table : gmap string Row :=
  <["s" := mkRow 10 EmptyString scheduled 0 0 0]>
  (<["r" := mkRow 11 EmptyString running 0 0 0]>
  (<["c" := mkRow 12 EmptyString cancelled 0 0 0]>
  (<["x" := mkRow 13 EmptyString dead 4 0 0]>
  (<["d" := mkRow 14 EmptyString done 0 0 0]> ∅)))).

(** ** The shape of a step *)

(** What a step that can happen does, case by case: a creation under a fresh
    id, a cancellation of a known job, a step that changes nothing (a
    cancellation of an unknown id, an iteration with nothing due), an
    iteration that pops a due entry and starts a thread, and the end of a
    run of [execute_job]. *)
Inductive step_shape (s : State) : Op → State → Prop :=
  | shape_create now k data :
      jobs s !! k = None →
      step_shape s (OpCreate now k data)
        (mkState (<[k := new_job now k data]> (jobs s))
                 (heappush (heap s) (run_at (new_job now k data), k))
                 (<[k := row_of_job (new_job now k data)]> (db s))
                 (db_log s ++ [(k, row_of_job (new_job now k data))])
                 (threads s))
  | shape_cancel k j :
      jobs s !! k = Some j →
      step_shape s (OpCancel k)
        (mkState (<[k := set_status cancelled j]> (jobs s)) (heap s)
                 (<[k := row_of_job (set_status cancelled j)]> (db s))
                 (db_log s ++ [(k, row_of_job (set_status cancelled j))])
                 (threads s))
  | shape_nothing op :
      op_target op = None ∨ (∃ k, op = OpCancel k ∧ jobs s !! k = None) →
      step_shape s op s
  | shape_dispatch now t k h' j :
      heappop (heap s) = Some ((t, k), h') → t ≤ now →
      jobs s !! k = Some j →
      step_shape s (OpTick now)
        (mkState (jobs s) h' (db s) (db_log s) (threads s ++ [k]))
  | shape_finish k o now j :
      k ∈ threads s → jobs s !! k = Some j → id j = k →
      pending s k = 0%nat → inflight s k = 1%nat →
      step_shape s (OpFinish k o now)
        (mkState (<[k := final_job o now j]> (jobs s))
                 (if requeues o j
                  then heappush (heap s) (run_at (final_job o now j), k)
                  else heap s)
                 (<[k := row_of_job (final_job o now j)]> (db s))
                 (db_log s ++ writes o now j)
                 (end_thread k (threads s))).

(** ** Further invariants *)

(** Every heap entry belongs to a known job and carries the [run_at] that
    job has now. *)
Definition keyed (s : State) : Prop :=
  ∀ e : Entry, e ∈ heap s → ∃ j, jobs s !! e.2 = Some j ∧ run_at j = e.1.

(** The table mirrors [jobs]: the row of every job in memory decodes to that
    job, and a row without a job in memory is the row the table [t] had at
    startup. *)
Definition mirrored (t : gmap string Row) (s : State) : Prop :=
  (∀ k j, jobs s !! k = Some j →
     ∃ r, db s !! k = Some r ∧ job_of_row k r = j) ∧
  (∀ k, jobs s !! k = None → db s !! k = t !! k).

(** The fields of a job that no statement of the program assigns after the
    job is built. *)
Definition same_identity (j j' : Job) : Prop :=
  id j' = id j ∧ payload j' = payload j ∧
  recurring j' = recurring j ∧ interval j' = interval j.

(** The step is a [POST /jobs] that draws the UUID [k]. *)
Definition creates (k : string) (op : Op) : bool :=
  match op with
  | OpCreate _ k' _ => bool_decide (k' = k)
  | _ => false
  end.

(** No creation among the steps draws [k]. *)
Definition never_created (k : string) (ops : list Op) : bool :=
  forallb (λ op, negb (creates k op)) ops.

(** * Properties *)

(** ** The order on heap entries *)

Section EntryOrder.

Lemma ascii_compare_lt_trans (a b c : ascii) :
  (a ?= b)%char = Lt → (b ?= c)%char = Lt → (a ?= c)%char = Lt.
Proof.
  unfold Ascii.compare. rewrite !N.compare_lt_iff. lia.
Qed.

Lemma string_compare_lt_trans (a b c : string) :
  (a ?= b)%string = Lt → (b ?= c)%string = Lt → (a ?= c)%string = Lt.
Proof.
  revert b c. induction a as [|x a IH]; intros [|y b] [|z c]; simpl; try done.
  destruct (x ?= y)%char eqn:Hxy; try done.
  - apply Ascii.compare_eq_iff in Hxy as ->.
    destruct (y ?= z)%char; try done. apply IH.
  - intros _. destruct (y ?= z)%char eqn:Hyz; try done.
    + apply Ascii.compare_eq_iff in Hyz as <-. by rewrite Hxy.
    + by rewrite (ascii_compare_lt_trans x y z).
Qed.

Lemma string_ltb_irrefl (a : string) : String.ltb a a = false.
Proof.
  unfold String.ltb. pose proof (String.compare_antisym a a) as H.
  destruct (a ?= a)%string; simpl in H; congruence.
Qed.

Lemma string_ltb_asym (a b : string) :
  String.ltb a b = true → String.ltb b a = false.
Proof.
  unfold String.ltb. rewrite (String.compare_antisym a b).
  by destruct (b ?= a)%string.
Qed.

Lemma string_ltb_trans (a b c : string) :
  String.ltb a b = true → String.ltb b c = true → String.ltb a c = true.
Proof.
  unfold String.ltb. intros Hab Hbc.
  rewrite (string_compare_lt_trans a b c); [done| |].
  - by destruct (a ?= b)%string.
  - by destruct (b ?= c)%string.
Qed.

(** Two different ids are ordered one way or the other. *)
Lemma string_ltb_total (a b : string) :
  a ≠ b → String.ltb a b = false → String.ltb b a = true.
Proof.
  unfold String.ltb. intros Hne. rewrite (String.compare_antisym b a).
  destruct (a ?= b)%string eqn:Hab; simpl; try done.
  by apply String.compare_eq_iff in Hab.
Qed.

Lemma entry_ltb_spec (x y : Entry) :
  entry_ltb x y = true ↔
  x.1 < y.1 ∨ (x.1 = y.1 ∧ String.ltb x.2 y.2 = true).
Proof.
  unfold entry_ltb.
  rewrite orb_true_iff, andb_true_iff, Z.ltb_lt, Z.eqb_eq. tauto.
Qed.

Lemma entry_ltb_asym (x y : Entry) :
  entry_ltb x y = true → entry_ltb y x = false.
Proof.
  intros Hxy. apply not_true_is_false. revert Hxy.
  rewrite !entry_ltb_spec. intros [?|[? Hs]] [?|[? Hs']]; try lia.
  apply string_ltb_asym in Hs. congruence.
Qed.

Lemma entry_ltb_trans (x y z : Entry) :
  entry_ltb x y = true → entry_ltb y z = true → entry_ltb x z = true.
Proof.
  rewrite !entry_ltb_spec. intros [?|[? Hs]] [?|[? Hs']]; try (left; lia).
  right. split; [lia|]. by apply (string_ltb_trans _ y.2).
Qed.

(** Entries that are not ordered either way are the same tuple. *)
Lemma entry_ltb_total (x y : Entry) :
  entry_ltb x y = false → entry_ltb y x = false → x = y.
Proof.
  intros Hxy Hyx. apply not_true_iff_false in Hxy, Hyx.
  rewrite entry_ltb_spec in Hxy, Hyx.
  destruct x as [t a], y as [u b]; simpl in *.
  assert (t = u) as -> by lia. f_equal.
  destruct (decide (a = b)) as [|Hne]; [done|].
  destruct (String.ltb a b) eqn:Hab; [tauto|].
  apply string_ltb_total in Hab; [tauto|done].
Qed.

#[global] Instance entry_le_refl : Reflexive entry_le.
Proof.
  intros x. unfold entry_le. apply not_true_is_false.
  rewrite entry_ltb_spec. intros [?|[_ Hs]]; [lia|].
  by rewrite string_ltb_irrefl in Hs.
Qed.

#[global] Instance entry_le_trans : Transitive entry_le.
Proof.
  intros x y z Hxy Hyz. unfold entry_le in *.
  destruct (entry_ltb z x) eqn:Hzx; [|done].
  destruct (entry_ltb y z) eqn:Hzy.
  - by rewrite (entry_ltb_trans y z x) in Hxy.
  - rewrite (entry_ltb_total y z) in Hxy; congruence.
Qed.

End EntryOrder.

(** ** [heappush] and [heappop] keep the entries *)

Section Heapq.

Implicit Types (h heap : list Entry) (x y : Entry) (k : string).

(** Filling the hole at [i] and opening one at [j], whose item moved to
    [i]. *)
Lemma hole_move heap (i j : nat) (a b : Entry) :
  heap !! i = Some a → (j < length heap)%nat →
  <[i := b]> (<[j := a]> heap) ≡ₚ <[j := b]> heap.
Proof.
  intros Hi Hj. destruct (decide (i = j)) as [->|Hne].
  { by rewrite list_insert_insert_eq. }
  rewrite <-(list_insert_insert_eq heap j a b).
  apply Permutation_insert_swap.
  - by apply list_lookup_insert_eq.
  - by rewrite list_lookup_insert_ne.
Qed.

Lemma siftdown_loop_perm (fuel : nat) heap (startpos pos : nat) (newitem : Entry) :
  (pos < length heap)%nat →
  siftdown_loop fuel heap startpos pos newitem ≡ₚ <[pos := newitem]> heap.
Proof.
  revert heap pos. induction fuel as [|fuel IH]; intros heap pos Hpos; [done|].
  cbn [siftdown_loop]. destruct (startpos <? pos)%nat; [|done].
  destruct (heap !! ((pos - 1) / 2)%nat) as [parent|] eqn:Hparent; [|done].
  destruct (entry_ltb newitem parent); [|done].
  rewrite IH.
  - by apply hole_move.
  - rewrite length_insert. by apply lookup_lt_Some in Hparent.
Qed.

Lemma _siftdown_perm heap (startpos pos : nat) : _siftdown heap startpos pos ≡ₚ heap.
Proof.
  unfold _siftdown. destruct (heap !! pos) as [newitem|] eqn:Hpos; [|done].
  rewrite siftdown_loop_perm by by apply lookup_lt_Some in Hpos.
  by rewrite list_insert_id.
Qed.

Lemma siftup_loop_perm (fuel : nat) heap (endpos pos : nat) (newitem : Entry)
    h' (pos' : nat) :
  (pos < length heap)%nat →
  siftup_loop fuel heap endpos pos = (h', pos') →
  (pos' < length h')%nat ∧ <[pos' := newitem]> h' ≡ₚ <[pos := newitem]> heap.
Proof.
  revert heap pos. induction fuel as [|fuel IH]; intros heap pos Hpos;
    cbn [siftup_loop].
  { by intros [= <- <-]. }
  destruct (2 * pos + 1 <? endpos)%nat; [|by intros [= <- <-]].
  destruct (heap !! smaller_child heap endpos (2 * pos + 1)) as [child|] eqn:Hchild;
    [|by intros [= <- <-]].
  intros Hloop. apply IH in Hloop as [Hlt Hperm].
  - split; [done|]. rewrite Hperm. by apply hole_move.
  - rewrite length_insert. by apply lookup_lt_Some in Hchild.
Qed.

Lemma _siftup_perm heap (pos : nat) : _siftup heap pos ≡ₚ heap.
Proof.
  unfold _siftup. destruct (heap !! pos) as [newitem|] eqn:Hpos; [|done].
  destruct (siftup_loop _ heap _ pos) as [h' pos'] eqn:Hloop.
  apply (siftup_loop_perm _ _ _ _ newitem) in Hloop as [Hlt Hperm];
    [|by apply lookup_lt_Some in Hpos].
  by rewrite _siftdown_perm, Hperm, list_insert_id.
Qed.

Lemma heappush_perm h x : heappush h x ≡ₚ x :: h.
Proof.
  unfold heappush. rewrite _siftdown_perm. symmetry. apply Permutation_cons_append.
Qed.

Lemma elem_of_heappush h x y : y ∈ heappush h x ↔ y = x ∨ y ∈ h.
Proof. rewrite heappush_perm. apply elem_of_cons. Qed.

(** [heappop] returns [heap[0]] and leaves the other entries. *)
Lemma heappop_Some h x h' :
  heappop h = Some (x, h') → heap0 h = Some x ∧ h ≡ₚ x :: h'.
Proof.
  unfold heappop. destruct (last h) as [lastelt|] eqn:Hlast; [|done].
  apply last_Some in Hlast as [l ->]. rewrite removelast_last.
  destruct l as [|returnitem l].
  - by intros [= <- <-].
  - intros [= <- <-]. split; [done|]. rewrite _siftup_perm. simpl.
    rewrite <-Permutation_cons_append. done.
Qed.

Lemma heappop_None h : heappop h = None → h = [].
Proof.
  unfold heappop. destruct (last h) as [lastelt|] eqn:Hlast.
  - by destruct (removelast h).
  - intros _. by apply last_None.
Qed.

Lemma count_id_perm k h h' : h ≡ₚ h' → count_id k h = count_id k h'.
Proof. intros Hp. unfold count_id. by rewrite Hp. Qed.

Lemma count_id_cons k x h :
  count_id k (x :: h) = ((if decide (x.2 = k) then 1 else 0) + count_id k h)%nat.
Proof. unfold count_id. rewrite filter_cons. by destruct (decide _). Qed.

Lemma count_id_heappush k h x :
  count_id k (heappush h x) =
  ((if decide (x.2 = k) then 1 else 0) + count_id k h)%nat.
Proof. by rewrite (count_id_perm k _ _ (heappush_perm h x)), count_id_cons. Qed.

Lemma count_id_heappop k h x h' :
  heappop h = Some (x, h') →
  count_id k h = ((if decide (x.2 = k) then 1 else 0) + count_id k h')%nat.
Proof.
  intros [_ Hp]%heappop_Some. by rewrite (count_id_perm k _ _ Hp), count_id_cons.
Qed.

Lemma count_id_pos k h : (0 < count_id k h)%nat ↔ ∃ x, x ∈ h ∧ x.2 = k.
Proof.
  unfold count_id. split.
  - intros Hlen. destruct (filter _ h) as [|x l] eqn:Hf; simpl in Hlen; [lia|].
    assert (x ∈ filter (λ e : Entry, e.2 = k) h) as Hx by (rewrite Hf; left).
    apply list_elem_of_filter in Hx as [? ?]. by exists x.
  - intros (x & Hx & Hk).
    assert (x ∈ filter (λ e : Entry, e.2 = k) h) as Hin
      by by apply list_elem_of_filter.
    destruct (filter _ h); [by apply elem_of_nil in Hin | simpl; lia].
Qed.

Lemma count_id_zero k h : count_id k h = 0%nat ↔ ∀ x, x ∈ h → x.2 ≠ k.
Proof.
  split.
  - intros Hz x Hx Hk. assert (0 < count_id k h)%nat; [|lia].
    apply count_id_pos. eauto.
  - intros Hall. destruct (count_id k h) eqn:Hc; [done|].
    assert (0 < count_id k h)%nat as Hpos by lia.
    apply count_id_pos in Hpos as (x & Hx & Hk). by destruct (Hall x Hx).
Qed.

End Heapq.

(** ** [heappush] and [heappop] keep the heap order *)

Section HeapOrder.

Implicit Types (h heap : list Entry) (x y : Entry) (i pos : nat).

Lemma parent_lt i : (0 < i)%nat → (parent i < i)%nat.
Proof. unfold parent. intros. apply Nat.Div0.div_lt_upper_bound. lia. Qed.

Lemma parent_child i p :
  (0 < i)%nat → parent i = p ↔ i = (2 * p + 1)%nat ∨ i = (2 * p + 2)%nat.
Proof.
  unfold parent. intros Hi.
  pose proof (Nat.div_mod_eq (i - 1) 2) as Hdm.
  pose proof (Nat.mod_upper_bound (i - 1) 2 ltac:(lia)) as Hm.
  lia.
Qed.

Lemma entry_le_ltb x y z : entry_le x y → entry_ltb z x = true → entry_ltb z y = true.
Proof.
  unfold entry_le. intros Hxy Hzx.
  destruct (entry_ltb z y) eqn:Hzy; [done|].
  destruct (entry_ltb x y) eqn:Hxy'.
  - by rewrite (entry_ltb_trans z x y) in Hzy.
  - rewrite (entry_ltb_total x y) in Hzx by done. congruence.
Qed.

(** Writing [newitem] into the hole at [pos] gives a heap when [newitem]
    fits between the parent and the children of [pos]. *)
Lemma place_ok heap pos (newitem : Entry) :
  (pos < length heap)%nat →
  ok_except heap pos →
  below_ok heap pos newitem →
  (∀ p, (0 < pos)%nat → heap !! parent pos = Some p → entry_le p newitem) →
  heap_ok (<[pos := newitem]> heap).
Proof.
  intros Hlen Hexc Hbelow Habove i c p Hi Hc Hp.
  destruct (decide (i = pos)) as [->|Hipos].
  - rewrite list_lookup_insert_eq in Hc by done. simplify_eq.
    rewrite list_lookup_insert_ne in Hp by (pose proof (parent_lt pos Hi); lia).
    by apply Habove.
  - rewrite list_lookup_insert_ne in Hc by done.
    destruct (decide (parent i = pos)) as [Hpar|Hpar].
    + rewrite Hpar, list_lookup_insert_eq in Hp by done. simplify_eq.
      by apply (Hbelow i).
    + rewrite list_lookup_insert_ne in Hp by done. by apply (Hexc i).
Qed.

Lemma siftdown_loop_ok (fuel : nat) heap pos (newitem : Entry) :
  (pos ≤ fuel)%nat →
  (pos < length heap)%nat →
  ok_except heap pos →
  grand_ok heap pos →
  below_ok heap pos newitem →
  heap_ok (siftdown_loop fuel heap 0 pos newitem).
Proof.
  revert heap pos. induction fuel as [|fuel IH];
    intros heap pos Hfuel Hlen Hexc Hgrand Hbelow; cbn [siftdown_loop].
  { apply place_ok; try done. intros p Hpos. lia. }
  destruct (Nat.ltb_spec 0 pos) as [Hpos|Hpos].
  2:{ apply place_ok; try done. intros p ?. lia. }
  fold (parent pos). pose proof (parent_lt pos Hpos) as Hpp.
  destruct (heap !! parent pos) as [par|] eqn:Hpar.
  2:{ apply lookup_ge_None in Hpar. lia. }
  destruct (entry_ltb newitem par) eqn:Hlt.
  2:{ apply place_ok; try done. intros p _ Hp. by simplify_eq. }
  apply IH.
  - lia.
  - rewrite length_insert. lia.
  - intros i c p Hi Hipp Hparpp Hc Hp.
    destruct (decide (i = pos)) as [->|Hipos]; [done|].
    rewrite list_lookup_insert_ne in Hc by done.
    destruct (decide (parent i = pos)) as [Hparpos|Hparpos].
    + rewrite Hparpos, list_lookup_insert_eq in Hp by done. simplify_eq.
      by apply (Hgrand Hpos i c p).
    + rewrite list_lookup_insert_ne in Hp by done. by apply (Hexc i).
  - intros Hpp0 i c g Hi Hparpp Hc Hg.
    pose proof (parent_lt (parent pos) Hpp0) as Hppp.
    rewrite list_lookup_insert_ne in Hg by lia.
    assert (entry_le g par) as Hgpar.
    { apply (Hexc (parent pos)); try done; lia. }
    destruct (decide (i = pos)) as [->|Hipos].
    + rewrite list_lookup_insert_eq in Hc by done. by simplify_eq.
    + rewrite list_lookup_insert_ne in Hc by done.
      transitivity par; [done|]. apply (Hexc i); try done; [lia|by rewrite Hparpp].
  - intros i c Hi Hparpp Hc.
    assert (entry_le newitem par) as Hnp by by apply entry_ltb_asym.
    destruct (decide (i = pos)) as [->|Hipos].
    + rewrite list_lookup_insert_eq in Hc by done. by simplify_eq.
    + rewrite list_lookup_insert_ne in Hc by done.
      transitivity par; [done|]. apply (Hexc i); try done; [lia|by rewrite Hparpp].
Qed.


(** [smaller_child] picks a child of [pos] that no child of [pos] is
    smaller than. *)
Lemma smaller_child_spec heap pos :
  (2 * pos + 1 < length heap)%nat →
  let c := smaller_child heap (length heap) (2 * pos + 1) in
  (pos < c)%nat ∧ parent c = pos ∧
  ∃ child, heap !! c = Some child ∧
    ∀ i x, (0 < i)%nat → parent i = pos → heap !! i = Some x → entry_le child x.
Proof.
  intros Hlen c. subst c. unfold smaller_child.
  destruct (lookup_lt_is_Some_2 heap (2 * pos + 1)%nat Hlen) as [l Hl].
  rewrite Hl.
  assert (∀ i, (0 < i)%nat → parent i = pos →
               i = (2 * pos + 1)%nat ∨ i = (2 * pos + 1 + 1)%nat) as Hkids.
  { intros i Hi Hp. apply parent_child in Hp; [lia|done]. }
  assert (parent (2 * pos + 1) = pos ∧ parent (2 * pos + 1 + 1) = pos) as [Hp1 Hp2].
  { split; apply parent_child; lia. }
  destruct (Nat.ltb_spec (2 * pos + 1 + 1) (length heap)) as [Hr|Hr].
  - destruct (lookup_lt_is_Some_2 heap _ Hr) as [r Hr'].
    rewrite Hr'. destruct (entry_ltb l r) eqn:Hlr.
    + split_and!; [lia|done|]. exists l. split; [done|].
      intros i x Hi Hp Hx. destruct (Hkids i Hi Hp) as [-> | ->]; simplify_eq.
      * reflexivity.
      * by apply entry_ltb_asym.
    + split_and!; [lia|done|]. exists r. split; [done|].
      intros i x Hi Hp Hx. destruct (Hkids i Hi Hp) as [-> | ->]; simplify_eq.
      * done.
      * reflexivity.
  - split_and!; [lia|done|]. exists l. split; [done|].
    intros i x Hi Hp Hx. destruct (Hkids i Hi Hp) as [-> | ->]; simplify_eq.
    + reflexivity.
    + apply lookup_lt_Some in Hx. lia.
Qed.

Lemma siftup_loop_ok (fuel : nat) heap pos h' (pos' : nat) :
  (length heap ≤ fuel + pos)%nat →
  (pos < length heap)%nat →
  ok_except heap pos →
  grand_ok heap pos →
  siftup_loop fuel heap (length heap) pos = (h', pos') →
  length h' = length heap ∧ (pos' < length h')%nat ∧
  ok_except h' pos' ∧ grand_ok h' pos' ∧
  ∀ i, (0 < i)%nat → parent i = pos' → h' !! i = None.
Proof.
  revert heap pos. induction fuel as [|fuel IH];
    intros heap pos Hfuel Hlen Hexc Hgrand; cbn [siftup_loop]; [lia|].
  destruct (Nat.ltb_spec (2 * pos + 1) (length heap)) as [Hkid|Hleaf].
  2:{ intros [= <- <-]. split_and!; try done.
      intros i Hi Hp. apply lookup_ge_None. apply parent_child in Hp; lia. }
  destruct (smaller_child_spec heap pos Hkid) as (Hc & Hpc & child & Hchild & Hmin).
  revert Hc Hpc Hchild.
  generalize (smaller_child heap (length heap) (2 * pos + 1)).
  intros c Hc Hpc Hchild. rewrite Hchild. pose proof (lookup_lt_Some _ _ _ Hchild) as Hclen.
  rewrite <-(length_insert heap pos child) at 1.
  intros Hloop. apply IH in Hloop.
  - destruct Hloop as (Hl & Hrest). split; [|done].
    rewrite Hl. apply length_insert.
  - rewrite length_insert. lia.
  - by rewrite length_insert.
  - intros i x p Hi Hic Hpic Hx Hp.
    destruct (decide (i = pos)) as [->|Hipos].
    + rewrite list_lookup_insert_eq in Hx by done. injection Hx as <-.
      rewrite list_lookup_insert_ne in Hp
        by (pose proof (parent_lt pos Hi); lia).
      apply (Hgrand Hi c); [lia|done|done|done].
    + rewrite list_lookup_insert_ne in Hx by done.
      destruct (decide (parent i = pos)) as [Hpar|Hpar].
      * rewrite Hpar, list_lookup_insert_eq in Hp by done. injection Hp as <-.
        by apply (Hmin i).
      * rewrite list_lookup_insert_ne in Hp by done. by apply (Hexc i).
  - intros Hc0 i x g Hi Hpi Hx Hg.
    rewrite Hpc, list_lookup_insert_eq in Hg by done. injection Hg as <-.
    assert (c < i)%nat by (pose proof (parent_lt i Hi); lia).
    rewrite list_lookup_insert_ne in Hx by lia.
    apply (Hexc i); [done|lia|lia|done|by rewrite Hpi].
Qed.

(** [_siftup(heap, 0)] repairs a heap whose root was replaced. *)
Lemma _siftup_ok heap : ok_except heap 0 → heap_ok (_siftup heap 0).
Proof.
  intros Hexc. unfold _siftup.
  destruct (heap !! 0%nat) as [newitem|] eqn:Hroot.
  2:{ apply lookup_ge_None in Hroot. intros i c p Hi Hc.
      apply lookup_lt_Some in Hc. lia. }
  destruct (siftup_loop _ heap _ 0) as [h' pos'] eqn:Hloop.
  apply siftup_loop_ok in Hloop as (Hlen & Hpos' & Hexc' & Hgrand' & Hleaf);
    [|lia|by apply lookup_lt_Some in Hroot|done|intros ?; lia].
  unfold _siftdown. rewrite list_lookup_insert_eq by done.
  apply siftdown_loop_ok.
  - done.
  - by rewrite length_insert.
  - intros i c p Hi Hipos Hpar Hc Hp.
    rewrite list_lookup_insert_ne in Hc, Hp by done. by apply (Hexc' i).
  - intros Hpos0 i c g Hi Hpar Hc Hg.
    rewrite list_lookup_insert_ne in Hc
      by (pose proof (parent_lt i Hi); lia).
    by rewrite (Hleaf i) in Hc.
  - intros i c Hi Hpar Hc.
    rewrite list_lookup_insert_ne in Hc
      by (pose proof (parent_lt i Hi); lia).
    by rewrite (Hleaf i) in Hc.
Qed.

Lemma heap_ok_nil : heap_ok [].
Proof. by intros i c p _ ?. Qed.

Lemma heappush_ok h x : heap_ok h → heap_ok (heappush h x).
Proof.
  intros Hok. unfold heappush, _siftdown.
  rewrite length_app. simpl.
  replace (length h + 1 - 1)%nat with (length h) by lia.
  rewrite lookup_app_r, Nat.sub_diag by done. simpl.
  assert (∀ i (c : Entry), i ≠ length h → (h ++ [x]) !! i = Some c → h !! i = Some c)
    as Hold.
  { intros i c Hi Hc. pose proof (lookup_lt_Some _ _ _ Hc) as Hlt.
    rewrite length_app in Hlt. simpl in Hlt.
    by rewrite lookup_app_l in Hc by lia. }
  assert (∀ i (c : Entry), (0 < i)%nat → parent i = length h → (h ++ [x]) !! i = None)
    as Hleaf.
  { intros i c Hi Hp. apply lookup_ge_None. rewrite length_app. simpl.
    pose proof (parent_lt i Hi). lia. }
  apply siftdown_loop_ok.
  - done.
  - rewrite length_app. simpl. lia.
  - intros i c p Hi Hipos Hpar Hc Hp. apply (Hok i); auto.
  - intros Hpos i c g Hi Hpar Hc. by rewrite (Hleaf i c) in Hc.
  - intros i c Hi Hpar Hc. by rewrite (Hleaf i c) in Hc.
Qed.

Lemma heappop_ok h x h' : heap_ok h → heappop h = Some (x, h') → heap_ok h'.
Proof.
  intros Hok. unfold heappop.
  destruct (last h) as [lastelt|] eqn:Hlast; [|done].
  apply last_Some in Hlast as [l ->]. rewrite removelast_last.
  destruct l as [|returnitem l]; intros [= <- <-]; [apply heap_ok_nil|].
  apply _siftup_ok. intros i c p Hi _ Hpar Hc Hp.
  destruct i as [|i]; [lia|].
  destruct (parent (S i)) as [|q] eqn:Hq; [done|].
  simpl in Hc, Hp. apply (Hok (S i)); [done| |].
  - simpl. apply lookup_app_l_Some. done.
  - rewrite Hq. simpl. by apply lookup_app_l_Some.
Qed.

(** In a heap no item is smaller than [heap[0]]. *)
Lemma heap_ok_root h (r : Entry) i x :
  heap_ok h → h !! 0%nat = Some r → h !! i = Some x → entry_le r x.
Proof.
  intros Hok Hr. revert x. induction (lt_wf i) as [i _ IH]. intros x Hx.
  destruct (Nat.eq_dec i 0%nat) as [->|Hi]; [by simplify_eq|].
  pose proof (parent_lt i ltac:(lia)) as Hp.
  destruct (lookup_lt_is_Some_2 h (parent i)) as [p Hpi].
  { apply lookup_lt_Some in Hx. lia. }
  transitivity p; [by apply (IH (parent i))|].
  apply (Hok i); [lia|done|done].
Qed.

(** [heappop] returns an entry that none of the entries it leaves is
    smaller than, in the order of the tuples. *)
Lemma heappop_least h x h' :
  heap_ok h → heappop h = Some (x, h') → ∀ y, y ∈ h' → entry_le x y.
Proof.
  intros Hok Hpop y Hy. destruct (heappop_Some _ _ _ Hpop) as [Hroot Hperm].
  assert (y ∈ h) as [i Hi]%list_elem_of_lookup by (rewrite Hperm; by right).
  apply (heap_ok_root h x i y); [done| |done].
  unfold heap0 in Hroot. by destruct h.
Qed.

End HeapOrder.

(** ** Threads *)

Section Threads.

Implicit Types (t : list string) (k : string).

Lemma count_thread_cons k k' t :
  count_thread k (k' :: t) =
  ((if decide (k' = k) then 1 else 0) + count_thread k t)%nat.
Proof. unfold count_thread. rewrite filter_cons. by destruct (decide _). Qed.

Lemma count_thread_snoc k k' t :
  count_thread k (t ++ [k']) =
  ((if decide (k' = k) then 1 else 0) + count_thread k t)%nat.
Proof.
  unfold count_thread. rewrite filter_app, length_app, filter_cons, filter_nil.
  destruct (decide _); simpl; lia.
Qed.

Lemma count_thread_pos k t : (0 < count_thread k t)%nat ↔ k ∈ t.
Proof.
  induction t as [|k' t IH].
  - split; [unfold count_thread; simpl; lia | by intros ?%elem_of_nil].
  - rewrite count_thread_cons, elem_of_cons. destruct (decide (k' = k)).
    + split; [by left | lia].
    + rewrite <-IH. split; [intros; right; lia | intros [?|?]; [done | lia]].
Qed.

Lemma count_thread_end_same k t :
  k ∈ t → count_thread k t = S (count_thread k (end_thread k t)).
Proof.
  induction t as [|k' t IH]; [by intros ?%elem_of_nil|].
  intros Hin. simpl. rewrite count_thread_cons.
  destruct (decide (k' = k)) as [|Hne]; [done|].
  rewrite count_thread_cons. rewrite decide_False by done. simpl.
  apply IH. apply elem_of_cons in Hin as [?|?]; [congruence | done].
Qed.

Lemma count_thread_end_other k k' t :
  k' ≠ k → count_thread k' (end_thread k t) = count_thread k' t.
Proof.
  intros Hne. induction t as [|k0 t IH]; [done|]. simpl.
  destruct (decide (k0 = k)) as [->|].
  - rewrite count_thread_cons. by rewrite decide_False by done.
  - by rewrite !count_thread_cons, IH.
Qed.

Lemma elem_of_end_thread k k' t : k' ∈ end_thread k t → k' ∈ t.
Proof.
  induction t as [|k0 t IH]; [done|]. simpl.
  destruct (decide (k0 = k)); rewrite !elem_of_cons; [by right | tauto].
Qed.

End Threads.

(** ** What each step does to the state *)

Section Steps.

Implicit Types (s : State) (k : string) (j : Job).

Lemma alter_lookup_Some {A} (f : A → A) (m : gmap string A) k (a : A) :
  m !! k = Some a → alter f k m = <[k := f a]> m.
Proof.
  intros Hk. apply map_eq. intros k'. rewrite lookup_alter, lookup_insert.
  destruct (decide (k = k')) as [->|]; [by rewrite Hk | done].
Qed.

Lemma execute_job_jobs o now k s j :
  jobs s !! k = Some j →
  jobs (execute_job o now k s) = <[k := final_job o now j]> (jobs s).
Proof.
  intros Hk. unfold execute_job, final_job, update_job. simpl. rewrite Hk.
  destruct o; simpl.
  - destruct (recurring j) eqn:Hr; simpl;
      by rewrite (alter_lookup_Some _ _ _ _ Hk), ?alter_insert_eq.
  - destruct (retries j + 1 <=? 3) eqn:Hr; simpl;
      by rewrite (alter_lookup_Some _ _ _ _ Hk), ?alter_insert_eq.
Qed.

Lemma execute_job_heap o now k s j :
  jobs s !! k = Some j →
  heap (execute_job o now k s) =
  if requeues o j
  then heappush (heap s) (run_at (final_job o now j), id j)
  else heap s.
Proof.
  intros Hk. unfold execute_job, final_job, requeues. simpl. rewrite Hk.
  destruct o; simpl.
  - by destruct (recurring j).
  - by destruct (retries j + 1 <=? 3).
Qed.

Lemma execute_job_threads o now k s :
  threads (execute_job o now k s) = end_thread k (threads s).
Proof.
  unfold execute_job. simpl. destruct (jobs s !! k) as [j|]; [|done].
  destruct o; simpl.
  - by destruct (recurring j).
  - by destruct (retries j + 1 <=? 3).
Qed.

Lemma execute_job_db_log o now k s j :
  jobs s !! k = Some j →
  db_log (execute_job o now k s) = db_log s ++ writes o now j.
Proof.
  intros Hk. unfold execute_job, final_job, writes. simpl. rewrite Hk.
  destruct o; simpl.
  - destruct (recurring j) eqn:Hr; simpl; [|done].
    by rewrite <-app_assoc.
  - by destruct (retries j + 1 <=? 3).
Qed.

Lemma execute_job_db o now k s j :
  jobs s !! k = Some j →
  db (execute_job o now k s) = <[id j := row_of_job (final_job o now j)]> (db s).
Proof.
  intros Hk. unfold execute_job, final_job. simpl. rewrite Hk.
  destruct o; simpl.
  - destruct (recurring j) eqn:Hr; simpl; [|done].
    by rewrite insert_insert_eq.
  - by destruct (retries j + 1 <=? 3).
Qed.

Lemma create_job_eq now k data s :
  create_job now k data s =
  (mkState (<[k := new_job now k data]> (jobs s))
           (heappush (heap s) (now + default 0 (req_delay data), k))
           (<[k := row_of_job (new_job now k data)]> (db s))
           (db_log s ++ [(k, row_of_job (new_job now k data))])
           (threads s),
   Created k (now + default 0 (req_delay data))).
Proof. reflexivity. Qed.

Lemma load_row_eq s kr :
  load_row s kr =
  mkState (<[kr.1 := job_of_row kr.1 kr.2]> (jobs s))
          (heappush (heap s) (row_run_at kr.2, kr.1))
          (db s) (db_log s) (threads s).
Proof. reflexivity. Qed.

Lemma delete_job_found k s j :
  jobs s !! k = Some j →
  delete_job k s =
  (mkState (<[k := set_status cancelled j]> (jobs s)) (heap s)
           (<[id j := row_of_job (set_status cancelled j)]> (db s))
           (db_log s ++ [(id j, row_of_job (set_status cancelled j))])
           (threads s), Ok).
Proof.
  intros Hk. unfold delete_job, update_job. rewrite Hk. simpl.
  by rewrite (alter_lookup_Some _ _ _ _ Hk).
Qed.

Lemma scheduler_loop_due now s t k h' j :
  heappop (heap s) = Some ((t, k), h') → t ≤ now → jobs s !! k = Some j →
  scheduler_loop now s =
  mkState (jobs s) h' (db s) (db_log s) (threads s ++ [k]).
Proof.
  intros Hpop Ht Hk. unfold scheduler_loop.
  destruct (heappop_Some _ _ _ Hpop) as [-> _]. rewrite Hpop. simpl.
  destruct (Z.leb_spec t now); [|lia]. by rewrite Hk.
Qed.

(** What one iteration does: nothing, or it pops [heap[0]], which is due,
    and starts a thread if [jobs] knows the id. *)
Lemma scheduler_loop_cases now s :
  scheduler_loop now s = s ∨
  ∃ t k h', heappop (heap s) = Some ((t, k), h') ∧ t ≤ now ∧
    scheduler_loop now s =
    mkState (jobs s) h' (db s) (db_log s)
            (match jobs s !! k with
             | Some _ => threads s ++ [k]
             | None => threads s
             end).
Proof.
  unfold scheduler_loop. destruct (heap0 (heap s)) as [top|] eqn:Htop; [|by left].
  destruct (Z.leb_spec top.1 now) as [Hdue|]; [|by left].
  destruct (heappop (heap s)) as [[[t k] h']|] eqn:Hpop; [|by left].
  right. exists t, k, h'. destruct (heappop_Some _ _ _ Hpop) as [Htop' _].
  rewrite Htop in Htop'. simplify_eq. simpl in Hdue. split_and!; try done.
  simpl. by destruct (jobs s !! k).
Qed.

End Steps.

(** ** The invariant of a running process *)

Section Invariant.

Implicit Types (s : State) (k : string) (j : Job).

Lemma unknown_quiet s k :
  Inv s → jobs s !! k = None → pending s k = 0%nat ∧ inflight s k = 0%nat.
Proof.
  intros HI Hk. split.
  - apply count_id_zero. intros e He <-.
    destruct (inv_heap s HI e He) as [? ?]. congruence.
  - destruct (inflight s k) eqn:Hc; [done|].
    assert (k ∈ threads s) as Hin by (apply count_thread_pos; unfold inflight in Hc; lia).
    destruct (inv_threads s HI k Hin) as [? ?]. congruence.
Qed.

(** A job under a fresh id enters [jobs] and the heap together. *)
Lemma Inv_add s k j t tbl log :
  Inv s → jobs s !! k = None → id j = k → status j ≠ done →
  Inv (mkState (<[k := j]> (jobs s)) (heappush (heap s) (t, k)) tbl log
               (threads s)).
Proof.
  intros HI Hk Hid Hst. destruct (unknown_quiet s k HI Hk) as [Hp Hf].
  split; simpl.
  - intros k' j'. rewrite lookup_insert. case_decide; [congruence|].
    apply (inv_id s HI).
  - intros e. rewrite elem_of_heappush, lookup_insert.
    intros [->|He]; simpl; case_decide; try done; eauto using inv_heap.
  - intros k' Hin. rewrite lookup_insert. case_decide; try done; eauto using inv_threads.
  - apply heappush_ok, (inv_heap_ok s HI).
  - intros k' j'. rewrite lookup_insert. unfold once, pending, inflight. simpl.
    rewrite count_id_heappush. simpl. case_decide as Hkk.
    + intros [= <-]. subst k'. unfold pending, inflight in Hp, Hf.
      rewrite Hp, Hf. simpl. split_and!; [lia|done|done].
    + intros Hj'. apply (inv_once s HI k' j' Hj').
Qed.

(** A write to a known job's dictionary that keeps its [id] and sets a
    status other than [scheduled] and [done]. *)
Lemma Inv_mark s k j j' tbl log :
  Inv s → jobs s !! k = Some j → id j' = id j →
  status j' ≠ scheduled → status j' ≠ done →
  Inv (mkState (<[k := j']> (jobs s)) (heap s) tbl log (threads s)).
Proof.
  intros HI Hk Hid Hs Hd. split; simpl.
  - intros k' j''. rewrite lookup_insert. case_decide.
    + intros [= <-]. subst k'. rewrite Hid. apply (inv_id s HI _ _ Hk).
    + apply (inv_id s HI).
  - intros e He. rewrite lookup_insert. case_decide; try done; eauto using inv_heap.
  - intros k' Hin. rewrite lookup_insert. case_decide; try done; eauto using inv_threads.
  - apply (inv_heap_ok s HI).
  - intros k' j''. rewrite lookup_insert. case_decide.
    + intros [= <-]. subst k'. destruct (inv_once s HI k j Hk) as (Hle & _ & _).
      split_and!; done.
    + apply (inv_once s HI).
Qed.

Lemma Inv_create now k data s :
  Inv s → jobs s !! k = None → Inv (create_job now k data s).1.
Proof. intros HI Hk. rewrite create_job_eq. by apply Inv_add. Qed.

Lemma Inv_load_row s kr :
  Inv s → jobs s !! kr.1 = None → row_status kr.2 ≠ done → Inv (load_row s kr).
Proof. intros HI Hk Hst. rewrite load_row_eq. by apply Inv_add. Qed.

Lemma Inv_delete k s : Inv s → Inv (delete_job k s).1.
Proof.
  intros HI. destruct (jobs s !! k) as [j|] eqn:Hk.
  - rewrite (delete_job_found k s j Hk). simpl. by apply (Inv_mark s k j).
  - unfold delete_job. by rewrite Hk.
Qed.

Lemma Inv_tick now s : Inv s → Inv (scheduler_loop now s).
Proof.
  intros HI.
  destruct (scheduler_loop_cases now s) as [->|(t & k & h' & Hpop & Hdue & ->)];
    [done|].
  destruct (heappop_Some _ _ _ Hpop) as [_ Hperm].
  destruct (inv_heap s HI (t, k)) as [j Hk]; [rewrite Hperm; left|].
  simpl in Hk. rewrite Hk. split; simpl.
  - apply (inv_id s HI).
  - intros e He. apply (inv_heap s HI). rewrite Hperm. by right.
  - intros k'. rewrite elem_of_app, list_elem_of_singleton.
    intros [Hin| ->]; eauto using inv_threads.
  - apply (heappop_ok _ _ _ (inv_heap_ok s HI) Hpop).
  - intros k' j' Hj'. pose proof (inv_once s HI k' j' Hj') as Ho.
    unfold once, pending, inflight in *. simpl.
    rewrite (count_id_heappop k' _ _ _ Hpop) in Ho. simpl in Ho.
    rewrite count_thread_snoc. destruct (decide (k = k')); simpl in *.
    + by replace (count_id k' h' + S (count_thread k' (threads s)))%nat
        with (S (count_id k' h' + count_thread k' (threads s)))%nat by lia.
    + done.
Qed.

Lemma Inv_finish o now k s : Inv s → k ∈ threads s → Inv (execute_job o now k s).
Proof.
  intros HI Hin. destruct (inv_threads s HI k Hin) as [j Hk].
  pose proof (inv_id s HI k j Hk) as Hid.
  destruct (inv_once s HI k j Hk) as (Hle & _ & _).
  pose proof (count_thread_end_same k (threads s) Hin) as Hend.
  assert (pending s k = 0%nat ∧ count_thread k (end_thread k (threads s)) = 0%nat)
    as [Hp Hf] by (unfold inflight in Hle; lia).
  assert (id (final_job o now j) = k) as Hfid.
  { unfold final_job. destruct o; [destruct (recurring j)|destruct (_ <=? _)]; done. }
  split.
  - intros k' j'. rewrite (execute_job_jobs o now k s j Hk), lookup_insert.
    case_decide; [congruence | apply (inv_id s HI)].
  - intros e. rewrite (execute_job_jobs o now k s j Hk),
      (execute_job_heap o now k s j Hk), lookup_insert.
    destruct (requeues o j).
    + rewrite elem_of_heappush, Hid. intros [->|He]; simpl; case_decide;
        try done; eauto using inv_heap.
    + intros He. case_decide; try done; eauto using inv_heap.
  - intros k'. rewrite (execute_job_jobs o now k s j Hk), execute_job_threads,
      lookup_insert. intros Hin'%elem_of_end_thread.
    case_decide; try done; eauto using inv_threads.
  - rewrite (execute_job_heap o now k s j Hk). destruct (requeues o j).
    + apply heappush_ok, (inv_heap_ok s HI).
    + apply (inv_heap_ok s HI).
  - intros k' j'. rewrite (execute_job_jobs o now k s j Hk), lookup_insert.
    unfold once, pending, inflight.
    rewrite (execute_job_heap o now k s j Hk), execute_job_threads.
    case_decide as Hkk.
    + intros [= <-]. subst k'. rewrite Hf. unfold pending in Hp.
      unfold final_job, requeues.
      destruct o; [destruct (recurring j)|destruct (retries j + 1 <=? 3)];
        rewrite ?count_id_heappush, ?Hp; simpl;
        rewrite ?decide_True by done; split_and!; done || lia.
    + intros Hj'. pose proof (inv_once s HI k' j' Hj') as Ho.
      unfold once, pending, inflight in Ho.
      rewrite (count_thread_end_other k k') by done.
      destruct (requeues o j); [|done].
      rewrite count_id_heappush. simpl. by rewrite Hid, decide_False by done.
Qed.

Lemma Inv_step op s : Inv s → enabled op s = true → Inv (step op s).
Proof.
  intros HI He. destruct op as [now k data|k|now|k o now]; simpl in *.
  - apply Inv_create; [done|]. by apply bool_decide_eq_true in He.
  - by apply Inv_delete.
  - by apply Inv_tick.
  - apply Inv_finish; [done|]. by apply bool_decide_eq_true in He.
Qed.

Lemma Inv_run ops s : Inv s → valid ops s = true → Inv (run ops s).
Proof.
  revert s. induction ops as [|op ops IH]; intros s HI Hv; [done|].
  simpl in Hv. apply andb_true_iff in Hv as [He Hv].
  apply (IH (step op s)); [by apply Inv_step | done].
Qed.

Lemma Inv_init t : Inv (init_state t).
Proof.
  split; simpl.
  - intros k j. by rewrite lookup_empty.
  - by intros e ?%elem_of_nil.
  - by intros k ?%elem_of_nil.
  - apply heap_ok_nil.
  - intros k j. by rewrite lookup_empty.
Qed.

End Invariant.

(** ** Startup load *)

Section Load.

Implicit Types (s : State) (k : string) (r : Row).

Lemma select_not_done_spec (t : gmap string Row) k r :
  (k, r) ∈ select_not_done t ↔ t !! k = Some r ∧ row_status r ≠ done.
Proof.
  unfold select_not_done. rewrite list_elem_of_filter, elem_of_map_to_list.
  simpl. tauto.
Qed.

Lemma select_not_done_NoDup (t : gmap string Row) :
  NoDup (select_not_done t).*1.
Proof.
  eapply sublist_NoDup; [apply (NoDup_fst_map_to_list t)|].
  apply fmap_sublist, sublist_filter.
Qed.

Lemma load_row_other s kr k :
  kr.1 ≠ k →
  jobs (load_row s kr) !! k = jobs s !! k ∧
  pending (load_row s kr) k = pending s k.
Proof.
  intros Hne. rewrite load_row_eq. unfold pending. simpl.
  rewrite lookup_insert_ne by done. rewrite count_id_heappush. simpl.
  by rewrite decide_False by done.
Qed.

Lemma load_row_same s k r :
  jobs (load_row s (k, r)) !! k = Some (job_of_row k r) ∧
  pending (load_row s (k, r)) k = S (pending s k) ∧
  (row_run_at r, k) ∈ heap (load_row s (k, r)).
Proof.
  rewrite load_row_eq. unfold pending. simpl.
  rewrite lookup_insert_eq, count_id_heappush, elem_of_heappush. simpl.
  rewrite decide_True by done. auto.
Qed.

Lemma load_row_heap_mono s kr (e : Entry) :
  e ∈ heap s → e ∈ heap (load_row s kr).
Proof. rewrite load_row_eq. simpl. rewrite elem_of_heappush. auto. Qed.

(** The loop over the fetched rows, from any state. *)
Lemma load_rows_spec (rows : list (string * Row)) s :
  NoDup rows.*1 →
  let s' := foldl load_row s rows in
  (∀ k r, (k, r) ∈ rows →
     jobs s' !! k = Some (job_of_row k r) ∧
     pending s' k = S (pending s k) ∧
     (row_run_at r, k) ∈ heap s') ∧
  (∀ k, k ∉ rows.*1 →
     jobs s' !! k = jobs s !! k ∧ pending s' k = pending s k) ∧
  (∀ e : Entry, e ∈ heap s → e ∈ heap s') ∧
  threads s' = threads s ∧ db s' = db s ∧ db_log s' = db_log s.
Proof.
  revert s. induction rows as [|[k0 r0] rows IH]; intros s Hnd; simpl.
  { split_and!; try done. by intros k r ?%elem_of_nil. }
  apply NoDup_cons in Hnd as [Hk0 Hnd].
  destruct (IH (load_row s (k0, r0)) Hnd) as (Hin & Hout & Hmono & Ht & Hd & Hl).
  split_and!; try done.
  - intros k r [[= -> ->]|Hkr]%elem_of_cons.
    + destruct (Hout k0 Hk0) as [-> ->].
      destruct (load_row_same s k0 r0) as (? & ? & ?). auto.
    + destruct (Hin k r Hkr) as (-> & -> & ?).
      assert (k0 ≠ k) as Hne.
      { intros ->. apply Hk0. apply list_elem_of_fmap. by exists (k, r). }
      destruct (load_row_other s (k0, r0) k Hne) as [_ ->]. auto.
  - intros k Hk. apply not_elem_of_cons in Hk as [Hne Hk].
    destruct (Hout k Hk) as [-> ->]. by apply load_row_other.
  - intros e He. by apply Hmono, load_row_heap_mono.
Qed.

Lemma Inv_load_rows (rows : list (string * Row)) s :
  NoDup rows.*1 →
  (∀ k r, (k, r) ∈ rows → jobs s !! k = None ∧ row_status r ≠ done) →
  Inv s → Inv (foldl load_row s rows).
Proof.
  revert s. induction rows as [|[k0 r0] rows IH]; intros s Hnd Hrows HI; [done|].
  apply NoDup_cons in Hnd as [Hk0 Hnd]. simpl. apply IH; [done| |].
  - intros k r Hkr. destruct (Hrows k r) as [Hk Hst]; [by right|].
    split; [|done]. rewrite load_row_eq. simpl.
    rewrite lookup_insert_ne; [done|].
    intros ->. apply Hk0. apply list_elem_of_fmap. by exists (k, r).
  - destruct (Hrows k0 r0) as [Hk Hst]; [left|]. by apply Inv_load_row.
Qed.

Lemma Inv_boot (t : gmap string Row) : Inv (boot t).
Proof.
  apply Inv_load_rows.
  - apply select_not_done_NoDup.
  - intros k r [_ Hst]%select_not_done_spec. split; [apply lookup_empty | done].
  - apply Inv_init.
Qed.

Lemma boot_empty : boot ∅ = init_state ∅.
Proof. unfold boot, load_jobs_at_start, select_not_done. simpl. by rewrite map_to_list_empty. Qed.

(** The entry an iteration of the scheduler pops is a smallest one of the
    heap, in the order of the tuples [(run_at, job_id)]. *)
Lemma pops_least (t : gmap string Row) (ops : list Op) (x y : Entry)
    (h' : list Entry) :
  valid ops (boot t) = true →
  heappop (heap (run ops (boot t))) = Some (x, h') →
  y ∈ h' → entry_ltb y x = false.
Proof.
  intros Hv Hpop Hy.
  apply (heappop_least _ _ _ (inv_heap_ok _ (Inv_run _ _ (Inv_boot t) Hv)) Hpop y Hy).
Qed.

End Load.

(** ** Jobs that are neither queued nor being executed *)

Section Quiet.

Implicit Types (s : State) (k : string) (j : Job).

Lemma scheduler_loop_jobs now s : jobs (scheduler_loop now s) = jobs s.
Proof.
  unfold scheduler_loop. destruct (heap0 (heap s)) as [top|]; [|done].
  destruct (top.1 <=? now); [|done].
  destruct (heappop (heap s)) as [[[t k] h']|]; [|done]. simpl.
  by destruct (jobs s !! k).
Qed.

(** A step about another id leaves [jobs[k]] alone. *)
Lemma step_jobs_other op s k :
  op_target op ≠ Some k → jobs (step op s) !! k = jobs s !! k.
Proof.
  intros Hne. destruct op as [now k' data|k'|now|k' o now]; simpl.
  - rewrite lookup_insert_ne; [done|]. simpl in Hne. congruence.
  - destruct (jobs s !! k') as [j'|] eqn:Hk'.
    + rewrite (delete_job_found k' s j' Hk'). simpl.
      rewrite lookup_insert_ne; [done|]. simpl in Hne. congruence.
    + unfold delete_job. by rewrite Hk'.
  - by rewrite scheduler_loop_jobs.
  - destruct (jobs s !! k') as [j'|] eqn:Hk'.
    + rewrite (execute_job_jobs o now k' s j' Hk').
      rewrite lookup_insert_ne; [done|]. simpl in Hne. congruence.
    + unfold execute_job. simpl. by rewrite Hk'.
Qed.

Lemma step_known op s k :
  is_Some (jobs s !! k) → is_Some (jobs (step op s) !! k).
Proof.
  intros [j Hk]. destruct (decide (op_target op = Some k)) as [Ht|Hne].
  2:{ rewrite step_jobs_other by done. eauto. }
  destruct op as [now k' data|k'|now|k' o now]; simplify_eq/=.
  - rewrite lookup_insert_eq. eauto.
  - rewrite (delete_job_found k s j Hk). simpl. rewrite lookup_insert_eq. eauto.
  - rewrite (execute_job_jobs o now k s j Hk), lookup_insert_eq. eauto.
Qed.

(** Once a known job is neither queued nor being executed, no step queues
    or starts it: nothing pushes its id but a finishing thread of its own,
    and nothing starts a thread for it but a pop of its entry. *)
Lemma quiet_step op s k :
  Inv s → is_Some (jobs s !! k) → quiet s k → enabled op s = true →
  quiet (step op s) k.
Proof.
  intros HI [j Hk] [Hp Hf] He. unfold quiet, pending, inflight in *.
  destruct op as [now k' data|k'|now|k' o now]; simpl in *.
  - apply bool_decide_eq_true in He. assert (k' ≠ k) by congruence.
    rewrite count_id_heappush. simpl. rewrite decide_False by done. auto.
  - destruct (jobs s !! k') as [j'|] eqn:Hk'.
    + by rewrite (delete_job_found k' s j' Hk').
    + unfold delete_job. by rewrite Hk'.
  - destruct (scheduler_loop_cases now s) as [->|(t & k0 & h' & Hpop & Hdue & ->)];
      [done|].
    simpl. rewrite (count_id_heappop k _ _ _ Hpop) in Hp. simpl in Hp.
    destruct (decide (k0 = k)); [lia|].
    split; [lia|]. destruct (jobs s !! k0); [|done].
    rewrite count_thread_snoc. by rewrite decide_False by done.
  - apply bool_decide_eq_true in He.
    assert (k' ≠ k) as Hne.
    { intros ->. apply count_thread_pos in He. lia. }
    rewrite execute_job_threads, count_thread_end_other by done.
    split; [|done]. destruct (inv_threads s HI k' He) as [j' Hk'].
    rewrite (execute_job_heap o now k' s j' Hk').
    destruct (requeues o j'); [|done]. rewrite count_id_heappush. simpl.
    rewrite (inv_id s HI k' j' Hk'). by rewrite decide_False by done.
Qed.

(** A quiet job is not the target of a thread that finishes, nor of the
    UUID of a creation. *)
Lemma quiet_untouched op s k j :
  jobs s !! k = Some j → quiet s k → enabled op s = true →
  cancels k op = false → jobs (step op s) !! k = Some j.
Proof.
  intros Hk [Hp Hf] He Hc. rewrite step_jobs_other; [done|].
  destruct op as [now k' data|k'|now|k' o now]; simpl in *; try done.
  - apply bool_decide_eq_true in He. congruence.
  - apply bool_decide_eq_false in Hc. congruence.
  - apply bool_decide_eq_true in He. intros [= ->].
    apply count_thread_pos in He. unfold inflight in Hf. lia.
Qed.

Lemma quiet_run ops s k j :
  Inv s → jobs s !! k = Some j → quiet s k → valid ops s = true →
  quiet (run ops s) k ∧
  (never_cancelled k ops = true → jobs (run ops s) !! k = Some j).
Proof.
  revert s j. induction ops as [|op ops IH]; intros s j HI Hk Hq Hv; [done|].
  simpl in Hv. apply andb_true_iff in Hv as [He Hv]. simpl.
  destruct (step_known op s k) as [j' Hk']; [by eauto|].
  destruct (IH (step op s) j') as [Hq' Hj']; try done.
  { by apply Inv_step. }
  { apply quiet_step; eauto. }
  split; [done|]. intros [Hc Hnc]%andb_true_iff.
  apply negb_true_iff in Hc.
  rewrite (quiet_untouched op s k j) in Hk' by done. simplify_eq. auto.
Qed.

End Quiet.

(** ** Counting failed runs *)

Section Retries.

Implicit Types (s : State) (k : string) (j : Job).

Lemma attempts_failures k ops :
  always_fails k ops = true → attempts k ops = failures k ops.
Proof.
  induction ops as [|op ops IH]; [done|]. simpl.
  intros [Hop Hops]%andb_true_iff. apply negb_true_iff in Hop.
  by rewrite Hop, IH.
Qed.

Lemma track_step op s k n pure :
  Inv s → enabled op s = true → track s k n pure →
  track (step op s) k
        (n + if finishes k Failure op then 1 else 0)
        (pure && negb (finishes k Success op) && negb (cancels k op)).
Proof.
  intros HI He Ht. unfold track in *.
  destruct (decide (op_target op = Some k)) as [Htgt|Hne].
  - destruct op as [now k' data|k'|now|k' o now]; simplify_eq/=.
    + apply bool_decide_eq_true in He. rewrite He in Ht. subst n.
      rewrite lookup_insert_eq. simpl. split_and!; try done; lia.
    + destruct (jobs s !! k) as [j|] eqn:Hk.
      * rewrite (delete_job_found k s j Hk). simpl. rewrite lookup_insert_eq.
        destruct Ht as (Hr & Hn & Hq & Hd & Hp). simpl.
        rewrite Z.add_0_r, bool_decide_true by done.
        rewrite andb_false_r. split_and!; first [done | lia | exact Hq].
      * unfold delete_job. rewrite Hk. simpl. rewrite Hk. lia.
    + apply bool_decide_eq_true in He.
      destruct (inv_threads s HI k He) as [j Hk]. rewrite Hk in Ht.
      destruct Ht as (Hr & Hn & Hq & Hd & Hp).
      destruct (inv_once s HI k j Hk) as (Hle & _ & _).
      assert (0 < inflight s k)%nat as Hfl by by apply count_thread_pos.
      assert (n ≠ 4) as Hn4.
      { intros Heq. destruct (Hq Heq) as [_ Hf]. lia. }
      rewrite (execute_job_jobs o now k s j Hk), lookup_insert_eq.
      rewrite bool_decide_true by done. simpl.
      destruct o; simpl.
      * rewrite Z.add_0_r, andb_false_r.
        destruct (recurring j); simpl; split_and!; done || lia.
      * rewrite andb_true_r. rewrite Hr.
        destruct (Z.leb_spec (n + 1) 3) as [H3|H3]; simpl.
        -- split_and!; try done; try lia. intros _.
           by destruct (Z.ltb_spec (n + 1) 4); [|lia].
        -- assert (n = 3) as -> by lia. split_and!; try done.
           intros _. unfold quiet, pending, inflight.
           rewrite (execute_job_heap Failure now k s j Hk), execute_job_threads.
           simpl. rewrite Hr. simpl.
           pose proof (count_thread_end_same k (threads s) He).
           unfold inflight, pending in *. lia.
  - rewrite (step_jobs_other op s k Hne).
    assert (finishes k Failure op = false ∧ finishes k Success op = false
            ∧ cancels k op = false) as (-> & -> & ->).
    { destruct op as [now k' data|k'|now|k' o now]; simpl in *; try done.
      - split_and!; try done. apply bool_decide_eq_false. congruence.
      - rewrite bool_decide_false by congruence. done. }
    rewrite Z.add_0_r, !andb_true_r.
    destruct (jobs s !! k) as [j|] eqn:Hk; [|done].
    destruct Ht as (Hr & Hn & Hq & Hd & Hp). split_and!; try done; try lia.
    intros Hn4. apply quiet_step; eauto.
Qed.

Lemma track_run ops s k n pure :
  Inv s → valid ops s = true → track s k n pure →
  track (run ops s) k (n + failures k ops)
        (pure && always_fails k ops && never_cancelled k ops).
Proof.
  revert s n pure. induction ops as [|op ops IH]; intros s n pure HI Hv Ht.
  { simpl. by rewrite Z.add_0_r, !andb_true_r. }
  simpl in Hv. apply andb_true_iff in Hv as [He Hv]. simpl.
  pose proof (IH (step op s) _ _ (Inv_step op s HI He) Hv
                (track_step op s k n pure HI He Ht)) as Hrun.
  replace (n + ((if finishes k Failure op then 1 else 0) + failures k ops))
    with (n + (if finishes k Failure op then 1 else 0) + failures k ops) by lia.
  replace (pure && (negb (finishes k Success op) && always_fails k ops)
           && (negb (cancels k op) && never_cancelled k ops))
    with (pure && negb (finishes k Success op) && negb (cancels k op)
          && always_fails k ops && never_cancelled k ops); [done|].
  destruct pure, (finishes k Success op), (cancels k op),
    (always_fails k ops), (never_cancelled k ops); done.
Qed.

(** A job that is not in the table at startup is not in [jobs] either. *)
Lemma boot_unknown (t : gmap string Row) k :
  t !! k = None → jobs (boot t) !! k = None.
Proof.
  intros Hk. pose proof (load_rows_spec (select_not_done t) (init_state t)
                           (select_not_done_NoDup t)) as (_ & Hout & _).
  unfold boot, load_jobs_at_start. simpl.
  destruct (Hout k) as [Hj _]; [|by rewrite Hj].
  intros [[k' r] [-> Hin]]%list_elem_of_fmap.
  apply select_not_done_spec in Hin as [? _]. simpl in *. congruence.
Qed.

Lemma track_boot (t : gmap string Row) k :
  t !! k = None → track (boot t) k 0 true.
Proof. intros Hk. unfold track. by rewrite boot_unknown. Qed.

Lemma track_start (t : gmap string Row) k r0 :
  starts_with t k r0 → track (boot t) k r0 true.
Proof.
  unfold starts_with, track. destruct (jobs (boot t) !! k) as [j0|]; [|done].
  intros (Hst & Hr & Hn). rewrite Hst. split_and!; try done; try lia.
  intros _. by destruct (Z.ltb_spec r0 4); [|lia].
Qed.

End Retries.

(** ** Conversion of integers to doubles *)

Section Floats.

Lemma lor_1 q : 0 <= q -> Z.lor q 1 = 2 * (q / 2) + 1.
Proof.
  intros Hq. apply Z.bits_inj'. intros n Hn.
  rewrite Z.lor_spec.
  destruct (Z.eq_dec n 0) as [->|Hne].
  - rewrite Z.testbit_odd_0. simpl. by rewrite orb_true_r.
  - replace n with (Z.succ (n - 1)) by lia.
    rewrite Z.testbit_odd_succ by lia.
    rewrite Z.div2_bits by lia.
    replace (Z.testbit 1 (Z.succ (n - 1))) with false; [by rewrite orb_false_r|].
    symmetry. apply Z.bits_above_log2; simpl; lia.
Qed.

Lemma half_even_correction_spec x :
  0 <= x ->
  let x' := x + half_even_correction (Z.land x 7) in
  x' mod 4 = 0 /\ x - 2 <= x' <= x + 2 /\
  (x mod 4 = 0 -> x' = x) /\
  (6 <= x mod 8 -> x' = x + 8 - x mod 8).
Proof.
  intros Hx x'. subst x'.
  change 7 with (Z.ones 3). rewrite Z.land_ones by lia.
  change (2 ^ 3) with 8.
  pose proof (Z.mod_pos_bound x 8 ltac:(lia)) as Hr.
  pose proof (Z.div_mod x 8 ltac:(lia)) as Hd.
  set (r := x mod 8) in *. set (m := x / 8) in *.
  assert (r = 0 \/ r = 1 \/ r = 2 \/ r = 3 \/ r = 4 \/ r = 5 \/ r = 6 \/ r = 7)
    as Hcases by lia.
  assert (x mod 4 = r mod 4) as Hm4.
  { rewrite Hd. replace (8 * m + r) with (r + (2 * m) * 4) by lia.
    by rewrite Z.mod_add by lia. }
  destruct Hcases as [H|[H|[H|[H|[H|[H|[H|H]]]]]]]; rewrite H in *;
    match goal with
    | |- context [half_even_correction ?k] =>
        let v := eval vm_compute in (half_even_correction k) in
        change (half_even_correction k) with v
    end.
  all: split; [|split; [lia|split; [|fold r; rewrite ?H; lia]]].
  all: try (intros Hx4; rewrite Hm4 in Hx4; vm_compute in Hx4; lia).
  all: match goal with
       | |- ?e mod 4 = 0 =>
           first [ replace e with ((2 * m) * 4) by lia
                 | replace e with ((2 * m + 1) * 4) by lia
                 | replace e with ((2 * m + 2) * 4) by lia ]
       end; apply Z.mod_mul; lia.
Qed.

(** The leading 55 bits of an integer that has no more. *)
Lemma x_digits_small a :
  0 < a -> Z.log2 a + 1 <= 55 ->
  x_digits a = a * 2 ^ (55 - (Z.log2 a + 1)).
Proof.
  intros Ha Hn. unfold x_digits, DBL_MANT_DIG.
  destruct (Z.leb_spec (Z.log2 a + 1) (53 + 2)); [|lia].
  rewrite Z.shiftl_mul_pow2 by lia. f_equal.
Qed.

Lemma x_digits_bounds a :
  0 < a -> 2 ^ 54 <= x_digits a < 2 ^ 55.
Proof.
  intros Ha. pose proof (Z.log2_spec a Ha) as [Hlo Hhi].
  pose proof (Z.log2_nonneg a) as Hl.
  replace (Z.succ (Z.log2 a)) with (Z.log2 a + 1) in Hhi by lia.
  destruct (Z.le_gt_cases (Z.log2 a + 1) 55) as [Hn|Hn].
  - rewrite x_digits_small by done.
    set (m := 55 - (Z.log2 a + 1)) in *.
    assert (0 < 2 ^ m) as Hm by (apply Z.pow_pos_nonneg; lia).
    assert (2 ^ 54 = 2 ^ Z.log2 a * 2 ^ m) as ->.
    { rewrite <-Z.pow_add_r by lia. f_equal. lia. }
    assert (2 ^ 55 = 2 ^ (Z.log2 a + 1) * 2 ^ m) as ->.
    { rewrite <-Z.pow_add_r by lia. f_equal. lia. }
    split; [apply Z.mul_le_mono_nonneg_r; lia | apply Z.mul_lt_mono_pos_r; lia].
  - unfold x_digits, DBL_MANT_DIG.
    destruct (Z.leb_spec (Z.log2 a + 1) (53 + 2)); [lia|].
    set (sh := Z.log2 a + 1 - 53 - 2) in *.
    rewrite Z.shiftr_div_pow2 by lia.
    assert (0 < 2 ^ sh) as Hm by (apply Z.pow_pos_nonneg; lia).
    assert (2 ^ Z.log2 a = 2 ^ 54 * 2 ^ sh) as Hlo'.
    { rewrite <-Z.pow_add_r by lia. f_equal. lia. }
    assert (2 ^ (Z.log2 a + 1) = 2 ^ 55 * 2 ^ sh) as Hhi'.
    { rewrite <-Z.pow_add_r by lia. f_equal. lia. }
    assert (2 ^ 54 <= a / 2 ^ sh) as Hq1.
    { apply Z.div_le_lower_bound; lia. }
    assert (a / 2 ^ sh < 2 ^ 55) as Hq2.
    { apply Z.div_lt_upper_bound; lia. }
    destruct (_ =? 0).
    + rewrite Z.lor_0_r. lia.
    + rewrite lor_1 by lia.
      pose proof (Z.div_mod (a / 2 ^ sh) 2 ltac:(lia)) as Hd.
      pose proof (Z.mod_pos_bound (a / 2 ^ sh) 2 ltac:(lia)) as Hr.
      change (2 ^ 55) with (2 * 2 ^ 54) in *. lia.
Qed.

(** What [_PyLong_Frexp] returns: a significand of 55 bits whose two low bits
    are zero, and the number of bits, one more when rounding carried. *)
Lemma frexp_spec a :
  0 < a ->
  let '(x, e) := _PyLong_Frexp a in
  2 ^ 54 <= x <= 2 ^ 55 - 4 /\ x mod 4 = 0 /\
  Z.log2 a + 1 <= e <= Z.log2 a + 2.
Proof.
  intros Ha. unfold _PyLong_Frexp.
  pose proof (x_digits_bounds a Ha) as [Hlo Hhi].
  destruct (half_even_correction_spec (x_digits a) ltac:(lia)) as (H4 & Hb & _).
  set (x := x_digits a + _) in *. unfold DBL_MANT_DIG.
  change (2 ^ (53 + 2)) with (2 ^ 55). change (2 ^ (53 + 1)) with (2 ^ 54).
  destruct (Z.eqb_spec x (2 ^ 55)) as [Hx|Hx].
  - split_and!; try done; lia.
  - pose proof (Z.div_mod x 4 ltac:(lia)) as Hd. rewrite H4 in Hd.
    change (2 ^ 54) with (4 * 2 ^ 52) in *. change (2 ^ 55) with (4 * 2 ^ 53) in *.
    split_and!; try done; lia.
Qed.

(** An integer of at most 53 bits, and [2 ^ 53], are converted exactly. *)
Lemma PyLong_AsDouble_exact z :
  Z.abs z <= 2 ^ 53 -> PyLong_AsDouble z = Some z.
Proof.
  intros Hz. unfold PyLong_AsDouble.
  destruct (Z.eqb_spec z 0) as [->|Hz0]; [done|].
  assert (0 < Z.abs z) as Ha by lia.
  destruct (Z.eq_dec (Z.abs z) (2 ^ 53)) as [Heq|Hne].
  { rewrite Heq.
    assert (_PyLong_Frexp (2 ^ 53) = (2 ^ 54, 54)) as -> by (by vm_compute).
    unfold DBL_MAX_EXP, DBL_MANT_DIG.
    replace (Z.shiftl (2 ^ 54) (54 - (53 + 2))) with (2 ^ 53) by (by vm_compute).
    destruct (Z.ltb_spec 1024 54); [lia|]. f_equal. lia. }
  set (a := Z.abs z) in *.
  pose proof (Z.log2_spec a Ha) as [Hlo Hhi].
  pose proof (Z.log2_nonneg a) as Hl.
  assert (Z.log2 a < 53) as Hn.
  { apply Z.log2_lt_pow2; lia. }
  unfold _PyLong_Frexp.
  rewrite x_digits_small by lia.
  set (m := 55 - (Z.log2 a + 1)).
  assert (2 ^ m = 4 * 2 ^ (m - 2)) as Hm.
  { change 4 with (2 ^ 2). rewrite <-Z.pow_add_r by lia. f_equal. lia. }
  assert (0 < 2 ^ (m - 2)) as Hm2 by (apply Z.pow_pos_nonneg; lia).
  destruct (half_even_correction_spec (a * 2 ^ m) ltac:(lia)) as (_ & _ & Hsame & _).
  rewrite Hsame.
  2:{ rewrite Hm. replace (a * (4 * 2 ^ (m - 2))) with (0 + (a * 2 ^ (m - 2)) * 4) by lia.
      by rewrite Z.mod_add by lia. }
  unfold DBL_MANT_DIG, DBL_MAX_EXP. change (2 ^ (53 + 2)) with (2 ^ 55).
  assert (a * 2 ^ m < 2 ^ 55) as Hlt.
  { assert (2 ^ 55 = 2 ^ (Z.log2 a + 1) * 2 ^ m) as ->.
    { rewrite <-Z.pow_add_r by lia. f_equal. lia. }
    apply Z.mul_lt_mono_pos_r; lia. }
  destruct (Z.eqb_spec (a * 2 ^ m) (2 ^ 55)); [lia|].
  destruct (Z.ltb_spec 1024 (Z.log2 a + 1)); [lia|].
  f_equal.
  replace (Z.log2 a + 1 - (53 + 2)) with (- m) by lia.
  rewrite Z.shiftl_opp_r, Z.shiftr_div_pow2 by lia.
  rewrite Z.div_mul by lia. subst a. lia.
Qed.

(** The conversion gives a double: at most [DBL_MAX = 2^1024 - 2^971] in
    magnitude. *)
Lemma PyLong_AsDouble_bound z d :
  PyLong_AsDouble z = Some d -> Z.abs d <= 2 ^ 1024 - 2 ^ 971.
Proof.
  unfold PyLong_AsDouble.
  destruct (Z.eqb_spec z 0) as [->|Hz0].
  { intros [= <-]. simpl. lia. }
  assert (0 < Z.abs z) as Ha by lia.
  pose proof (frexp_spec (Z.abs z) Ha) as Hf.
  pose proof (Z.log2_nonneg (Z.abs z)) as Hl.
  destruct (_PyLong_Frexp (Z.abs z)) as [x e].
  destruct Hf as ((Hlo & Hhi) & H4 & He).
  unfold DBL_MAX_EXP, DBL_MANT_DIG.
  destruct (Z.ltb_spec 1024 e); [done|]. intros [= <-].
  rewrite Z.abs_mul.
  assert (Z.abs (Z.sgn z) = 1) as -> by lia. rewrite Z.mul_1_l.
  destruct (Z.le_gt_cases 55 e) as [H55|H55].
  - rewrite Z.shiftl_mul_pow2 by lia.
    assert (0 < 2 ^ (e - (53 + 2))) as Hp by (apply Z.pow_pos_nonneg; lia).
    rewrite Z.abs_eq by lia.
    assert (2 ^ (e - (53 + 2)) <= 2 ^ 969) as Hle by (apply Z.pow_le_mono_r; lia).
    assert (2 ^ 1024 - 2 ^ 971 = (2 ^ 55 - 4) * 2 ^ 969) as -> by (by vm_compute).
    apply Z.mul_le_mono_nonneg; lia.
  - replace (e - (53 + 2)) with (- (55 - e)) by lia.
    rewrite Z.shiftl_opp_r, Z.shiftr_div_pow2 by lia.
    assert (0 < 2 ^ (55 - e)) as Hp by (apply Z.pow_pos_nonneg; lia).
    assert (0 <= x / 2 ^ (55 - e) <= x) as Hq.
    { split; [apply Z.div_pos; lia|]. apply Z.div_le_upper_bound; [lia|]. nia. }
    rewrite Z.abs_eq by lia.
    assert (2 ^ 55 <= 2 ^ 1024 - 2 ^ 971) by (by vm_compute). lia.
Qed.

(** The conversion raises exactly from [2^1024 - 2^970] on, the middle
    between [DBL_MAX] and [2^1024]. *)
Lemma PyLong_AsDouble_None z :
  PyLong_AsDouble z = None <-> 2 ^ 1024 - 2 ^ 970 <= Z.abs z.
Proof.
  unfold PyLong_AsDouble.
  destruct (Z.eqb_spec z 0) as [->|Hz0].
  { split; [done|]. intros H. exfalso. revert H. by vm_compute. }
  set (a := Z.abs z). assert (0 < a) as Ha by lia.
  pose proof (Z.log2_spec a Ha) as [Hlo Hhi].
  pose proof (Z.log2_nonneg a) as Hl.
  replace (Z.succ (Z.log2 a)) with (Z.log2 a + 1) in Hhi by lia.
  pose proof (frexp_spec a Ha) as Hf.
  destruct (_PyLong_Frexp a) as [x e] eqn:Hfr.
  destruct Hf as (Hx & H4 & He).
  unfold DBL_MAX_EXP.
  assert (2 ^ 1024 - 2 ^ 970 = (2 ^ 55 - 2) * 2 ^ 969) as Hthr by (by vm_compute).
  destruct (Z.lt_trichotomy (Z.log2 a + 1) 1024) as [Hn|[Hn|Hn]].
  - (* fewer than 1024 bits *)
    destruct (Z.ltb_spec 1024 e); [lia|]. split; [done|]. intros Hbig.
    assert (2 ^ (Z.log2 a + 1) <= 2 ^ 1023) by (apply Z.pow_le_mono_r; lia).
    assert (2 ^ 1023 < 2 ^ 1024 - 2 ^ 970) by (by vm_compute). lia.
  - (* 1024 bits: the carry decides *)
    unfold _PyLong_Frexp in Hfr. unfold DBL_MANT_DIG in Hfr.
    change (2 ^ (53 + 2)) with (2 ^ 55) in Hfr.
    assert (x_digits a =
            Z.lor (a / 2 ^ 969) (if Z.land a (Z.ones 969) =? 0 then 0 else 1)) as Hxd.
    { unfold x_digits, DBL_MANT_DIG.
      destruct (Z.leb_spec (Z.log2 a + 1) (53 + 2)); [lia|].
      replace (Z.log2 a + 1 - 53 - 2) with 969 by lia.
      by rewrite Z.shiftr_div_pow2 by lia. }
    set (q := a / 2 ^ 969) in *.
    assert (0 < 2 ^ 969) as Hp by (by vm_compute).
    pose proof (Z.div_mod a (2 ^ 969) ltac:(lia)) as Hd. fold q in Hd.
    pose proof (Z.mod_pos_bound a (2 ^ 969) Hp) as Hr.
    assert (2 ^ (Z.log2 a + 1) = 2 ^ 55 * 2 ^ 969) as Hhi'.
    { rewrite Hn. by vm_compute. }
    assert (q < 2 ^ 55) as Hq by (apply Z.div_lt_upper_bound; lia).
    assert (0 <= q) as Hq0 by (apply Z.div_pos; lia).
    destruct (half_even_correction_spec (x_digits a)) as (Hc4 & Hcb & _ & Hc6).
    { pose proof (x_digits_bounds a Ha). lia. }
    pose proof (x_digits_bounds a Ha) as Hxb.
    set (x1 := x_digits a + _) in *.
    pose proof (Z.div_mod x1 4 ltac:(lia)) as Hd4. rewrite Hc4 in Hd4.
    change (2 ^ 55) with (4 * 2 ^ 53) in *.
    destruct (Z.eqb_spec x1 (4 * 2 ^ 53)) as [Hcarry|Hnc].
    + (* carry *)
      injection Hfr as <- <-.
      destruct (Z.ltb_spec 1024 (Z.log2 a + 1 + 1)); [|lia].
      split; [intros _|done].
      (* x_digits >= 2^55 - 2 *)
      assert (4 * 2 ^ 53 - 2 <= x_digits a) as Hxlow by lia.
      rewrite Hxd in Hxlow.
      destruct (_ =? 0) eqn:Hst.
      * rewrite Z.lor_0_r in Hxlow. rewrite Hthr. nia.
      * rewrite lor_1 in Hxlow by done.
        pose proof (Z.div_mod q 2 ltac:(lia)) as Hq2.
        pose proof (Z.mod_pos_bound q 2 ltac:(lia)) as Hq2r.
        rewrite Hthr. nia.
    + injection Hfr as <- <-.
      destruct (Z.ltb_spec 1024 (Z.log2 a + 1)); [lia|].
      split; [done|]. intros Hbig. exfalso.
      (* a >= (2^55-2)*2^969 gives q >= 2^55 - 2, x_digits >= 2^55 - 2, so a carry *)
      assert (4 * 2 ^ 53 - 2 <= q) as Hqbig.
      { apply Z.div_le_lower_bound; [lia|]. rewrite Hthr in Hbig.
        change (2 ^ 55) with (4 * 2 ^ 53) in Hbig. lia. }
      assert (4 * 2 ^ 53 - 2 <= x_digits a) as Hxlow.
      { rewrite Hxd. destruct (_ =? 0); [rewrite Z.lor_0_r; lia|].
        rewrite lor_1 by done.
        pose proof (Z.div_mod q 2 ltac:(lia)) as Hq2.
        pose proof (Z.mod_pos_bound q 2 ltac:(lia)) as Hq2r. lia. }
      pose proof (Z.div_mod (x_digits a) 8 ltac:(lia)) as Hd8.
      pose proof (Z.mod_pos_bound (x_digits a) 8 ltac:(lia)) as Hr8.
      assert (6 <= x_digits a mod 8) as H6 by lia.
      specialize (Hc6 H6). lia.
  - (* more than 1024 bits *)
    destruct (Z.ltb_spec 1024 e); [|lia]. split; [intros _|done].
    assert (2 ^ 1024 <= 2 ^ Z.log2 a) by (apply Z.pow_le_mono_r; lia).
    assert (0 < 2 ^ 970) by (by vm_compute). lia.
Qed.

(** The sum of a clock reading below [2^970] and a double is finite. *)
Lemma float_add_finite now z d :
  Z.abs now < 2 ^ 970 → PyLong_AsDouble z = Some d → is_Some (float_add now d).
Proof.
  intros Hnow Hd. apply PyLong_AsDouble_bound in Hd.
  unfold float_add. destruct (PyLong_AsDouble (now + d)) as [r|] eqn:Hr; [by eexists|].
  apply PyLong_AsDouble_None in Hr.
  assert (2 ^ 1024 - 2 ^ 971 + 2 ^ 970 = 2 ^ 1024 - 2 ^ 970) by (by vm_compute).
  lia.
Qed.

Lemma float_bound v d : float v = Some d → ∃ z, PyLong_AsDouble z = Some d.
Proof.
  destruct v as [|b|z]; simpl; [done| |by eauto].
  intros [= <-]. exists (Z.b2z b). apply PyLong_AsDouble_exact. by destruct b.
Qed.

(** What [create_job_json] does once the conversions and the sum are
    known. *)
Lemma create_job_json_eq now k data s delay interval at_time :
  float (default (Int 0) (body_delay data)) = Some delay →
  float (default (Int 0) (body_interval data)) = Some interval →
  float_add now delay = Some at_time →
  let j := mkJob k at_time (default EmptyString (body_payload data)) scheduled 0
                 (default false (body_recurring data)) interval in
  create_job_json now k data s =
  Some (mkState (<[k := j]> (jobs s)) (heappush (heap s) (at_time, k))
                (<[k := row_of_job j]> (db s))
                (db_log s ++ [(k, row_of_job j)]) (threads s),
        Created k at_time).
Proof. intros Hd Hi Ha j. unfold create_job_json. by rewrite Hd, Ha, Hi. Qed.

End Floats.

(** * The claims *)

(** ** C1 *)

(** C1, as stated, fails.  The dispatcher's pop breaks the invariant: after
    the pop the job is still [scheduled] and no entry is left for it.  The
    startup load breaks it too: a [dead] row is loaded with an entry. *)
Lemma C1_counterexample :
  queue_matches_status submitted ∧
  ¬ queue_matches_status (step (OpTick 0) submitted) ∧
  ¬ queue_matches_status (boot mixed_table).
Proof.
  split_and!.
  - intros k j. unfold submitted. simpl. rewrite boot_empty. simpl.
    rewrite lookup_insert. case_decide as Hk; [|by rewrite lookup_empty].
    intros [= <-]. subst k. by vm_compute.
  - intros Hq.
    destruct (Hq "a"%string (new_job 0 "a" (delay_only 0))) as [[H1 _] _];
      [by vm_compute|].
    specialize (H1 eq_refl). by vm_compute in H1.
  - intros Hq.
    destruct (Hq "x"%string (job_of_row "x" (mkRow 13 EmptyString dead 4 0 0))) as [_ H2];
      [by vm_compute|].
    assert (pending (boot mixed_table) "x" = 0%nat) as H0 by by apply H2.
    by vm_compute in H0.
Qed.

(** C1, amended: in a running process, started on any table and after any
    steps, the id of every job is queued or being executed at most once;
    exactly once if the job's status is [scheduled] (one heap entry, or none
    while a thread executes the job, since the pop leaves the status
    [scheduled]); and not at all if its status is [done]. *)
Theorem C1_queue_invariant (t : gmap string Row) (ops : list Op)
    (k : string) (j : Job) :
  valid ops (boot t) = true →
  jobs (run ops (boot t)) !! k = Some j →
  let s := run ops (boot t) in
  (pending s k + inflight s k ≤ 1)%nat ∧
  (status j = scheduled → (pending s k + inflight s k)%nat = 1%nat) ∧
  (status j = done → pending s k = 0%nat ∧ inflight s k = 0%nat).
Proof.
  intros Hv Hk s.
  destruct (inv_once s (Inv_run ops (boot t) (Inv_boot t) Hv) k j Hk)
    as (Hle & Hs & Hd).
  split_and!; [done|done|]. intros Hdone. specialize (Hd Hdone). lia.
Qed.

Lemma C1_queue_invariant_witness :
  let ops := [OpCreate 0 "a" (delay_only 0); OpTick 0] in
  let j := new_job 0 "a" (delay_only 0) in
  valid ops (boot ∅) = true ∧
  jobs (run ops (boot ∅)) !! "a"%string = Some j ∧
  (pending (run ops (boot ∅)) "a" + inflight (run ops (boot ∅)) "a" ≤ 1)%nat ∧
  (status j = scheduled →
     (pending (run ops (boot ∅)) "a" + inflight (run ops (boot ∅)) "a")%nat = 1%nat) ∧
  (status j = done →
     pending (run ops (boot ∅)) "a" = 0%nat ∧ inflight (run ops (boot ∅)) "a" = 0%nat).
Proof.
  intros ops j. split; [by vm_compute|]. split; [by vm_compute|].
  apply (C1_queue_invariant ∅ ops "a" j); by vm_compute.
Defined.

(** ** C2 *)

(** [delete_job] writes the status and nothing else: the heap keeps the
    cancelled job's entry. *)
Lemma delete_job_heap k s : heap (delete_job k s).1 = heap s.
Proof.
  destruct (jobs s !! k) as [j|] eqn:Hk.
  - by rewrite (delete_job_found k s j Hk).
  - unfold delete_job. by rewrite Hk.
Qed.

(** C2 on Scenario 4.  After the cancellation the job is [cancelled] and its
    entry is still in the heap; an iteration at time 59 starts nothing; the
    iteration at time 60 pops the entry and starts [execute_job] on the
    cancelled job; when that run ends the job is [done]. *)
Theorem C2_cancelled_job_is_dispatched :
  let s1 := run submit_then_cancel (boot ∅) in
  let s2 := scheduler_loop 59 s1 in
  let s3 := scheduler_loop 60 s2 in
  let s4 := execute_job Success 61 "a" s3 in
  job_status s1 "a" = Some cancelled ∧
  heap s1 = [(60, "a"%string)] ∧
  threads s2 = [] ∧
  job_status s3 "a" = Some cancelled ∧
  threads s3 = ["a"%string] ∧
  job_status s4 "a" = Some done.
Proof. by vm_compute. Qed.

(** ** C3 *)

(** C3, as stated, fails: a job that is [done] becomes [cancelled]. *)
Lemma C3_counterexample :
  let s := run [OpCreate 0 "a" (delay_only 0); OpTick 0; OpFinish "a" Success 1]
               (boot ∅) in
  job_status s "a" = Some done ∧
  (delete_job "a" s).2 = Ok ∧
  job_status (delete_job "a" s).1 "a" = Some cancelled.
Proof. by vm_compute. Qed.

(** C3, amended: for every existing id, [delete_job] answers ok and sets the
    status to [cancelled] whatever the status was, changing no other field of
    the job and no other job; a second call answers ok again and leaves the
    jobs as the first call left them. *)
Theorem C3_cancel_unconditional (s : State) (k : string) (j : Job) :
  jobs s !! k = Some j →
  let s1 := (delete_job k s).1 in
  (delete_job k s).2 = Ok ∧
  jobs s1 = <[k := set_status cancelled j]> (jobs s) ∧
  job_status s1 k = Some cancelled ∧
  (delete_job k s1).2 = Ok ∧
  jobs (delete_job k s1).1 = jobs s1.
Proof.
  intros Hk s1. subst s1. rewrite (delete_job_found k s j Hk). simpl.
  unfold job_status. simpl.
  rewrite (delete_job_found k _ (set_status cancelled j)) by apply lookup_insert_eq.
  simpl. rewrite lookup_insert_eq, insert_insert_eq. done.
Qed.

Lemma C3_cancel_unconditional_witness :
  let s := run four_failures (boot ∅) in
  let j := mkJob "a" 9 EmptyString dead 4 false 0 in
  jobs s !! "a"%string = Some j ∧
  (delete_job "a" s).2 = Ok ∧
  jobs (delete_job "a" s).1 = <["a"%string := set_status cancelled j]> (jobs s) ∧
  job_status (delete_job "a" s).1 "a" = Some cancelled ∧
  (delete_job "a" (delete_job "a" s).1).2 = Ok ∧
  jobs (delete_job "a" (delete_job "a" s).1).1 = jobs (delete_job "a" s).1.
Proof.
  intros s j. split; [by vm_compute|].
  apply (C3_cancel_unconditional s "a" j). by vm_compute.
Defined.

(** ** C4 *)

(** Scenario 3, step by step: the status and [retries] after each of the four
    failed runs, and the heap after the last one. *)
Example scenario3_trace :
  get_job "a" (run (take 3 four_failures) (boot ∅))
    = Some (mkJob "a" 3 EmptyString scheduled 1 false 0) ∧
  get_job "a" (run (take 5 four_failures) (boot ∅))
    = Some (mkJob "a" 6 EmptyString scheduled 2 false 0) ∧
  get_job "a" (run (take 7 four_failures) (boot ∅))
    = Some (mkJob "a" 9 EmptyString scheduled 3 false 0) ∧
  get_job "a" (run four_failures (boot ∅))
    = Some (mkJob "a" 9 EmptyString dead 4 false 0) ∧
  heap (run four_failures (boot ∅)) = [].
Proof. by vm_compute. Qed.

(** C4, as stated, fails: a job that is [dead] with [retries = 4] is
    re-inserted and re-dispatched when the process is started again, because
    the startup load skips [done] rows only; if its work raises again, its
    [retries] becomes 5.  Here Scenario 3 is followed by a restart on the
    table it leaves. *)
Lemma C4_counterexample :
  let s := run four_failures (boot ∅) in
  let s1 := boot (db s) in
  let again := [OpTick 9; OpFinish "a" Failure 10] in
  get_job "a" s = Some (mkJob "a" 9 EmptyString dead 4 false 0) ∧
  pending s "a" = 0%nat ∧ inflight s "a" = 0%nat ∧
  get_job "a" s1 = Some (mkJob "a" 9 EmptyString dead 4 false 0) ∧
  pending s1 "a" = 1%nat ∧
  valid again s1 = true ∧
  inflight (step (OpTick 9) s1) "a" = 1%nat ∧
  get_job "a" (run again s1) = Some (mkJob "a" 9 EmptyString dead 5 false 0) ∧
  pending (boot mixed_table) "x" = 1%nat.
Proof. by vm_compute. Qed.

(** C4, amended: take a job whose work raises every time it is run and that
    the running process created, or loaded at startup as [scheduled] with
    [r0] retries, at most 3 ([r0 = 0] for a job the process created).  After
    any steps of the process its [retries] is [r0] plus the number of runs
    that ended, and never exceeds 4; once it is 4 the job is neither queued
    nor being executed, so as long as the process runs no further run
    follows.  Unless a cancellation was issued for the job, it is
    [scheduled], and queued or being executed exactly once, while [retries]
    is below 4, and [dead] once it is 4.  A further failing run adds 1 to
    [retries]; if the result is at most 3 it sets [scheduled] and
    [run_at = now + 2] and pushes that entry, otherwise it sets [dead] and
    leaves the heap alone. *)
Theorem C4_retry_bound (t : gmap string Row) (ops : list Op)
    (k : string) (r0 : Z) (j : Job) :
  starts_with t k r0 →
  valid ops (boot t) = true →
  always_fails k ops = true →
  jobs (run ops (boot t)) !! k = Some j →
  let s := run ops (boot t) in
  retries j = r0 + attempts k ops ∧
  retries j ≤ 4 ∧
  (retries j = 4 → pending s k = 0%nat ∧ inflight s k = 0%nat) ∧
  (never_cancelled k ops = true →
     (retries j < 4 →
        status j = scheduled ∧ (pending s k + inflight s k)%nat = 1%nat) ∧
     (retries j = 4 → status j = dead)) ∧
  ∀ now, let s' := execute_job Failure now k s in
    ∃ j', jobs s' !! k = Some j' ∧
      retries j' = retries j + 1 ∧
      (retries j' ≤ 3 →
         status j' = scheduled ∧ run_at j' = now + 2 ∧
         heap s' = heappush (heap s) (now + 2, k)) ∧
      (3 < retries j' → status j' = dead ∧ heap s' = heap s).
Proof.
  intros Ht Hv Hf Hk s.
  pose proof (Inv_run ops (boot t) (Inv_boot t) Hv) as HI.
  pose proof (track_run ops (boot t) k r0 true (Inv_boot t) Hv (track_start t k r0 Ht))
    as Htr.
  unfold track in Htr. subst s. set (s := run ops (boot t)) in *.
  rewrite Hk, Hf in Htr. simpl in Htr.
  rewrite <-(attempts_failures k ops Hf) in Htr.
  destruct Htr as (Hr & Hn & Hq & _ & Hst). rewrite <-Hr in Hn, Hq, Hst.
  destruct (inv_once s HI k j Hk) as (_ & Hone & _).
  split_and!; [done|lia|exact Hq| |].
  - intros Hc. specialize (Hst Hc). split.
    + intros Hlt. destruct (Z.ltb_spec (retries j) 4); [|lia].
      split; [done | by apply Hone].
    + intros Heq. by destruct (Z.ltb_spec (retries j) 4); [lia|].
  - intros now s'. exists (final_job Failure now j). subst s'.
    rewrite (execute_job_jobs Failure now k s j Hk), lookup_insert_eq.
    rewrite (execute_job_heap Failure now k s j Hk).
    rewrite (inv_id s HI k j Hk). unfold final_job, requeues.
    destruct (Z.leb_spec (retries j + 1) 3); simpl; split_and!; try done; lia.
Qed.

Lemma C4_retry_bound_witness :
  let j := mkJob "a" 9 EmptyString dead 4 false 0 in
  let s := run four_failures (boot ∅) in
  let t2 : gmap string Row := <["b" := mkRow 0 EmptyString scheduled 2 0 0]> ∅ in
  let ops2 := [OpTick 0; OpFinish "b" Failure 1; OpTick 3; OpFinish "b" Failure 4] in
  let j2 := mkJob "b" 3 EmptyString dead 4 false 0 in
  (starts_with ∅ "a" 0 ∧
   valid four_failures (boot ∅) = true ∧
   always_fails "a" four_failures = true ∧
   jobs s !! "a"%string = Some j ∧
   attempts "a" four_failures = 4 ∧
   never_cancelled "a" four_failures = true ∧
   retries j = 0 + attempts "a" four_failures ∧
   status j = dead ∧
   pending s "a" = 0%nat ∧ inflight s "a" = 0%nat) ∧
  (starts_with t2 "b" 2 ∧
   valid ops2 (boot t2) = true ∧
   always_fails "b" ops2 = true ∧
   jobs (run ops2 (boot t2)) !! "b"%string = Some j2 ∧
   attempts "b" ops2 = 2 ∧
   retries j2 = 2 + attempts "b" ops2 ∧
   pending (run ops2 (boot t2)) "b" = 0%nat ∧
   inflight (run ops2 (boot t2)) "b" = 0%nat).
Proof.
  intros j s t2 ops2 j2. split.
  - assert (starts_with ∅ "a" 0) as H1 by by vm_compute.
    assert (valid four_failures (boot ∅) = true) as H2 by by vm_compute.
    assert (always_fails "a" four_failures = true) as H3 by by vm_compute.
    assert (jobs s !! "a"%string = Some j) as H4 by by vm_compute.
    assert (attempts "a" four_failures = 4) as H5 by by vm_compute.
    assert (never_cancelled "a" four_failures = true) as H6 by by vm_compute.
    destruct (C4_retry_bound ∅ four_failures "a" 0 j H1 H2 H3 H4)
      as (Hr & _ & Hquiet & Hstatus & _).
    split; [exact H1|]. split; [exact H2|]. split; [exact H3|].
    split; [exact H4|]. split; [exact H5|]. split; [exact H6|].
    split; [exact Hr|].
    split; [exact (proj2 (Hstatus H6) eq_refl) | exact (Hquiet eq_refl)].
  - assert (starts_with t2 "b" 2) as H1 by by vm_compute.
    assert (valid ops2 (boot t2) = true) as H2 by by vm_compute.
    assert (always_fails "b" ops2 = true) as H3 by by vm_compute.
    assert (jobs (run ops2 (boot t2)) !! "b"%string = Some j2) as H4
      by by vm_compute.
    assert (attempts "b" ops2 = 2) as H5 by by vm_compute.
    destruct (C4_retry_bound t2 ops2 "b" 2 j2 H1 H2 H3 H4)
      as (Hr & _ & Hquiet & _).
    split; [exact H1|]. split; [exact H2|]. split; [exact H3|].
    split; [exact H4|]. split; [exact H5|]. split; [exact Hr|].
    exact (Hquiet eq_refl).
Defined.

(** ** C5 *)

(** C5, as stated, fails: at the end of Scenario 3 the job is [dead] and its
    [retries] is 4, above the maximum of 3. *)
Lemma C5_counterexample :
  let j := mkJob "a" 9 EmptyString dead 4 false 0 in
  get_job "a" (run four_failures (boot ∅)) = Some j ∧
  status j = dead ∧ retries j = 4 ∧ ¬ retries j ≤ 3.
Proof. by vm_compute. Qed.

(** C5, amended: a job created by the running process that has reached
    [dead] has [retries] equal to 4, the maximum plus one. *)
Theorem C5_dead_retries (t : gmap string Row) (ops : list Op)
    (k : string) (j : Job) :
  t !! k = None →
  valid ops (boot t) = true →
  jobs (run ops (boot t)) !! k = Some j →
  status j = dead →
  retries j = 4.
Proof.
  intros Ht Hv Hk Hd.
  pose proof (track_run ops (boot t) k 0 true (Inv_boot t) Hv (track_boot t k Ht))
    as Htr.
  unfold track in Htr. rewrite Hk in Htr.
  destruct Htr as (Hr & _ & _ & Hdead & _). rewrite Hr. by apply Hdead.
Qed.

Lemma C5_dead_retries_witness :
  let j := mkJob "a" 9 EmptyString dead 4 false 0 in
  (∅ : gmap string Row) !! "a"%string = None ∧
  valid four_failures (boot ∅) = true ∧
  jobs (run four_failures (boot ∅)) !! "a"%string = Some j ∧
  status j = dead ∧
  retries j = 4.
Proof.
  intros j.
  assert ((∅ : gmap string Row) !! "a"%string = None) as H1 by by vm_compute.
  assert (valid four_failures (boot ∅) = true) as H2 by by vm_compute.
  assert (jobs (run four_failures (boot ∅)) !! "a"%string = Some j) as H3
    by by vm_compute.
  assert (status j = dead) as H4 by reflexivity.
  repeat (split; [assumption|]).
  exact (C5_dead_retries ∅ four_failures "a" j H1 H2 H3 H4).
Defined.

(** ** C6 *)

(** No write of the program stores [running]: a job that is [running] after a
    step was [running] before it. *)
Lemma step_running op s k j :
  jobs (step op s) !! k = Some j → status j = running →
  ∃ j0, jobs s !! k = Some j0 ∧ status j0 = running.
Proof.
  intros Hk Hr. destruct (decide (op_target op = Some k)) as [Htgt|Hne].
  2:{ rewrite step_jobs_other in Hk by done. eauto. }
  destruct op as [now k' data|k'|now|k' o now]; simplify_eq/=.
  - rewrite lookup_insert_eq in Hk. by simplify_eq.
  - destruct (jobs s !! k) as [j0|] eqn:Hk0.
    + rewrite (delete_job_found k s j0 Hk0) in Hk. simpl in Hk.
      rewrite lookup_insert_eq in Hk. by simplify_eq.
    + unfold delete_job in Hk. rewrite Hk0 in Hk. simpl in Hk. congruence.
  - destruct (jobs s !! k) as [j0|] eqn:Hk0.
    + rewrite (execute_job_jobs o now k s j0 Hk0), lookup_insert_eq in Hk.
      simplify_eq. unfold final_job in Hr.
      by destruct o; [destruct (recurring j0)|destruct (_ <=? _)].
    + unfold execute_job in Hk. simpl in Hk. rewrite Hk0 in Hk. simpl in Hk.
      congruence.
Qed.

(** C6, as stated, fails: the dispatcher starts the executor on the job and
    the job's status is still [scheduled], not [running]. *)
Lemma C6_counterexample :
  let s1 := scheduler_loop 0 submitted in
  job_status submitted "a" = Some scheduled ∧
  threads s1 = ["a"%string] ∧
  job_status s1 "a" = Some scheduled ∧
  job_status s1 "a" ≠ Some running.
Proof. by vm_compute. Qed.

(** C6, amended: for every job popped as due whose status is [scheduled], the
    dispatcher removes the entry, starts the executor on the job and writes
    nothing to the job, whose status stays [scheduled] while it is executed;
    when the work succeeds the executor sets [done] (and leaves it at that for
    a job that is not recurring), so the statuses seen are [scheduled] and
    then [done]. *)
Theorem C6_dispatch_keeps_status (s : State) (now t : Z) (k : string)
    (h' : list Entry) (j : Job) :
  heappop (heap s) = Some ((t, k), h') →
  t ≤ now →
  jobs s !! k = Some j →
  status j = scheduled →
  let s1 := scheduler_loop now s in
  jobs s1 = jobs s ∧
  heap s1 = h' ∧
  threads s1 = threads s ++ [k] ∧
  job_status s1 k = Some scheduled ∧
  ∀ now', db_log (execute_job Success now' k s1) !! length (db_log s)
            = Some (id j, row_of_job (set_status done j)) ∧
          (recurring j = false →
             job_status (execute_job Success now' k s1) k = Some done).
Proof.
  intros Hpop Hdue Hk Hst s1.
  subst s1. rewrite (scheduler_loop_due now s t k h' j Hpop Hdue Hk).
  unfold job_status. simpl. rewrite Hk. simpl. rewrite Hst.
  split_and!; try done. intros now'.
  set (s1 := mkState _ _ _ _ _).
  assert (jobs s1 !! k = Some j) as Hk1 by done.
  rewrite (execute_job_db_log Success now' k s1 j Hk1),
    (execute_job_jobs Success now' k s1 j Hk1), lookup_insert_eq.
  split.
  - simpl. rewrite lookup_app_r by done. by rewrite Nat.sub_diag.
  - intros Hrec. simpl. by rewrite Hrec.
Qed.

Lemma C6_dispatch_keeps_status_witness :
  let j := new_job 0 "a" (delay_only 0) in
  let s1 := scheduler_loop 0 submitted in
  heappop (heap submitted) = Some ((0, "a"%string), []) ∧
  0 ≤ 0 ∧
  jobs submitted !! "a"%string = Some j ∧
  status j = scheduled ∧
  jobs s1 = jobs submitted ∧
  heap s1 = [] ∧
  threads s1 = threads submitted ++ ["a"%string] ∧
  job_status s1 "a" = Some scheduled ∧
  ∀ now', db_log (execute_job Success now' "a" s1) !! length (db_log submitted)
            = Some (id j, row_of_job (set_status done j)) ∧
          (recurring j = false →
             job_status (execute_job Success now' "a" s1) "a" = Some done).
Proof.
  intros j s1.
  assert (heappop (heap submitted) = Some ((0, "a"%string), [])) as H1
    by by vm_compute.
  assert (0 ≤ 0) as H2 by lia.
  assert (jobs submitted !! "a"%string = Some j) as H3 by by vm_compute.
  assert (status j = scheduled) as H4 by reflexivity.
  repeat (split; [assumption|]).
  exact (C6_dispatch_keeps_status submitted 0 0 "a" [] j H1 H2 H3 H4).
Defined.

(** ** C7 *)

(** Small heaps, by running the algorithms. *)
Lemma heappush_one (x y : Entry) :
  heappush [x] y = if entry_ltb y x then [y; x] else [x; y].
Proof. unfold heappush, _siftdown. simpl. by destruct (entry_ltb y x). Qed.

Lemma heappush_two (x y z : Entry) :
  entry_ltb z x = false → heappush [x; y] z = [x; y; z].
Proof. intros Hzx. unfold heappush, _siftdown. simpl. by rewrite Hzx. Qed.

Lemma heappop_three (x y z : Entry) :
  entry_ltb z y = false → heappop [x; y; z] = Some (x, [y; z]).
Proof. intros Hzy. unfold heappop, _siftup, _siftdown. simpl. by rewrite Hzy. Qed.

Lemma heappop_two (y z : Entry) : heappop [y; z] = Some (y, [z]).
Proof. reflexivity. Qed.

Lemma heappop_one (z : Entry) : heappop [z] = Some (z, []).
Proof. reflexivity. Qed.

(** The heap after pushing [(t, a)], [(t, b)] and [(t + 5, c)] in that order:
    the two entries with equal [run_at] stand in the order of their ids. *)
Lemma three_pushes (t : Z) (a b c : string) :
  a ≠ b →
  heappush (heappush (heappush [] (t, a)) (t, b)) (t + 5, c) =
  if String.ltb a b
  then [(t, a); (t, b); (t + 5, c)]
  else [(t, b); (t, a); (t + 5, c)].
Proof.
  intros Hne. change (heappush [] (t, a)) with [(t, a)]. rewrite heappush_one.
  assert (∀ k, entry_ltb (t + 5, c) (t, k) = false) as Hlate.
  { intros k. unfold entry_ltb. simpl.
    replace (t + 5 <? t) with false by (symmetry; apply Z.ltb_ge; lia).
    by replace (t + 5 =? t) with false by (symmetry; apply Z.eqb_neq; lia). }
  assert (entry_ltb (t, b) (t, a) = String.ltb b a) as ->.
  { unfold entry_ltb. simpl. by rewrite Z.ltb_irrefl, Z.eqb_refl. }
  destruct (String.ltb b a) eqn:Hba.
  - rewrite (string_ltb_asym b a Hba). by apply heappush_two.
  - rewrite (string_ltb_total b a) by done. by apply heappush_two.
Qed.

(** C7, as stated, fails: A (id ["2"]) and B (id ["1"]) have the same
    [run_at] and A is submitted first, yet B is dispatched before A. *)
Lemma C7_counterexample :
  let ops := [OpCreate 0 "2" (delay_only 10);      (* A *)
              OpCreate 0 "1" (delay_only 10);      (* B *)
              OpCreate 0 "3" (delay_only 15);      (* C *)
              OpTick 20; OpTick 20; OpTick 20] in
  heap (run (take 3 ops) (boot ∅))
    = [(10, "1"%string); (10, "2"%string); (15, "3"%string)] ∧
  threads (run (take 4 ops) (boot ∅)) = ["1"%string] ∧
  threads (run ops (boot ∅)) = ["1"%string; "2"%string; "3"%string].
Proof. by vm_compute. Qed.

(** C7, amended: dispatch order is determined by [run_at] with ties broken by
    the order of the job ids as strings, not by insertion order.  For jobs A,
    B, C submitted in that order to an empty scheduler with [run_at] [t], [t],
    [t + 5], the dispatcher pops C last, and pops A before B exactly when A's
    id is smaller than B's.  In general, in a running process the entry that
    is popped is not greater, as a tuple [(run_at, job_id)], than any entry
    left in the heap. *)
Theorem C7_dispatch_order (a b c : string) (nA nB nC n1 n2 n3 : Z)
    (rA rB rC : CreateRequest) :
  a ≠ b → a ≠ c → b ≠ c →
  let t := nA + default 0 (req_delay rA) in
  nB + default 0 (req_delay rB) = t →
  nC + default 0 (req_delay rC) = t + 5 →
  t ≤ n1 → t ≤ n2 → t + 5 ≤ n3 →
  threads (run [OpCreate nA a rA; OpCreate nB b rB; OpCreate nC c rC;
                OpTick n1; OpTick n2; OpTick n3] (boot ∅))
  = (if String.ltb a b then [a; b; c] else [b; a; c]) ∧
  ∀ (tbl : gmap string Row) (ops : list Op) (x y : Entry) (h' : list Entry),
    valid ops (boot tbl) = true →
    heappop (heap (run ops (boot tbl))) = Some (x, h') →
    y ∈ h' → entry_ltb y x = false.
Proof.
  intros Hab Hac Hbc t HB HC H1 H2 H3. split; [|apply pops_least].
  rewrite boot_empty.
  unfold run. cbn [foldl step]. rewrite !create_job_eq.
  cbn [fst heap jobs db db_log threads init_state].
  rewrite HB, HC. fold t. rewrite (three_pushes t a b c Hab).
  set (m := <[c:=_]> (<[b:=_]> (<[a:=_]> ∅)) : gmap string Job).
  assert (is_Some (m !! a) ∧ is_Some (m !! b) ∧ is_Some (m !! c))
    as ([ja Ha] & [jb Hb] & [jc Hc]).
  { subst m. split_and!.
    - rewrite lookup_insert_ne, lookup_insert_ne, lookup_insert_eq by done. eauto.
    - rewrite lookup_insert_ne, lookup_insert_eq by done. eauto.
    - rewrite lookup_insert_eq. eauto. }
  assert (∀ k, entry_ltb (t + 5, c) (t, k) = false) as Hlate.
  { intros k. unfold entry_ltb. simpl.
    replace (t + 5 <? t) with false by (symmetry; apply Z.ltb_ge; lia).
    by replace (t + 5 =? t) with false by (symmetry; apply Z.eqb_neq; lia). }
  destruct (String.ltb a b).
  - erewrite (scheduler_loop_due n1 _ t a);
      [|by apply heappop_three|lia|done]. simpl.
    erewrite (scheduler_loop_due n2 _ t b); [|by apply heappop_two|lia|done].
    simpl.
    erewrite (scheduler_loop_due n3 _ (t + 5) c); [|by apply heappop_one|lia|done].
    done.
  - erewrite (scheduler_loop_due n1 _ t b);
      [|by apply heappop_three|lia|done]. simpl.
    erewrite (scheduler_loop_due n2 _ t a); [|by apply heappop_two|lia|done].
    simpl.
    erewrite (scheduler_loop_due n3 _ (t + 5) c); [|by apply heappop_one|lia|done].
    done.
Qed.

Lemma C7_dispatch_order_witness :
  let ops := [OpCreate 0 "2" (delay_only 10);
              OpCreate 0 "1" (delay_only 10);
              OpCreate 0 "3" (delay_only 15);
              OpTick 20; OpTick 20; OpTick 20] in
  "2"%string ≠ "1"%string ∧ "2"%string ≠ "3"%string ∧ "1"%string ≠ "3"%string ∧
  0 + 10 = 0 + 10 ∧ 0 + 15 = 0 + 10 + 5 ∧
  0 + 10 ≤ 20 ∧ 0 + 10 ≤ 20 ∧ 0 + 10 + 5 ≤ 20 ∧
  threads (run ops (boot ∅))
  = if String.ltb "2" "1" then ["2"%string; "1"%string; "3"%string]
    else ["1"%string; "2"%string; "3"%string].
Proof.
  intros ops.
  assert ("2"%string ≠ "1"%string) as H1 by done.
  assert ("2"%string ≠ "3"%string) as H2 by done.
  assert ("1"%string ≠ "3"%string) as H3 by done.
  repeat (split; [assumption || lia|]).
  apply (C7_dispatch_order "2" "1" "3" 0 0 0 20 20 20
           (delay_only 10) (delay_only 10) (delay_only 15) H1 H2 H3);
    simpl; lia.
Defined.

(** ** C8 *)

(** C8: when the work of a job being executed succeeds, the executor sets
    [done] and persists; for a recurring job it then sets
    [run_at = now + interval] and [scheduled], pushes that entry and persists
    again, so the table receives the [done] row and after it the [scheduled]
    row; for a job that is not recurring the heap is left alone, and in every
    continuation of the process the job is neither queued nor executed again
    and, unless a cancellation is issued for it, stays [done]. *)
Theorem C8_success (t : gmap string Row) (ops : list Op) (k : string)
    (j : Job) (now : Z) :
  valid ops (boot t) = true →
  inflight (run ops (boot t)) k = 1%nat →
  jobs (run ops (boot t)) !! k = Some j →
  let s := run ops (boot t) in
  let s' := execute_job Success now k s in
  let done_row := (k, row_of_job (set_status done j)) in
  (recurring j = false →
     jobs s' !! k = Some (set_status done j) ∧
     heap s' = heap s ∧
     db_log s' = db_log s ++ [done_row] ∧
     db s' !! k = Some done_row.2 ∧
     ∀ ops', valid ops' s' = true →
       pending (run ops' s') k = 0%nat ∧
       inflight (run ops' s') k = 0%nat ∧
       (never_cancelled k ops' = true →
          jobs (run ops' s') !! k = Some (set_status done j))) ∧
  (recurring j = true →
     let j' := set_status scheduled (set_run_at (now + interval j) j) in
     jobs s' !! k = Some j' ∧
     heap s' = heappush (heap s) (now + interval j, k) ∧
     db_log s' = db_log s ++ [done_row; (k, row_of_job j')] ∧
     db s' !! k = Some (row_of_job j')).
Proof.
  intros Hv Hfl Hk s s' done_row.
  pose proof (Inv_run ops (boot t) (Inv_boot t) Hv) as HI.
  subst s' s done_row. set (s := run ops (boot t)) in *.
  pose proof (inv_id s HI k j Hk) as Hid.
  assert (k ∈ threads s) as Hin by (apply count_thread_pos; unfold inflight in Hfl; lia).
  pose proof (Inv_finish Success now k s HI Hin) as HI'.
  rewrite (execute_job_jobs Success now k s j Hk),
    (execute_job_heap Success now k s j Hk),
    (execute_job_db_log Success now k s j Hk),
    (execute_job_db Success now k s j Hk), Hid, !lookup_insert_eq.
  unfold final_job, requeues, writes. rewrite Hid.
  split; intros Hrec; rewrite Hrec.
  - split_and!; try done. intros ops' Hv'.
    assert (jobs (execute_job Success now k s) !! k = Some (set_status done j))
      as Hk'.
    { rewrite (execute_job_jobs Success now k s j Hk), lookup_insert_eq.
      simpl. by rewrite Hrec. }
    assert (quiet (execute_job Success now k s) k) as Hq.
    { destruct (inv_once _ HI' k _ Hk') as (_ & _ & Hd).
      specialize (Hd eq_refl). unfold quiet. lia. }
    destruct (quiet_run ops' _ k _ HI' Hk' Hq Hv') as [[Hp Hf] Hst].
    split_and!; done.
  - simpl. rewrite ?Hrec. split_and!; done.
Qed.

Lemma C8_success_witness :
  let j := mkJob "a" 0 EmptyString scheduled 0 true 10 in
  let s := run recurring_ops (boot ∅) in
  let s' := execute_job Success 7 "a" s in
  valid recurring_ops (boot ∅) = true ∧
  inflight s "a" = 1%nat ∧
  jobs s !! "a"%string = Some j ∧
  jobs s' !! "a"%string = Some (mkJob "a" 17 EmptyString scheduled 0 true 10) ∧
  heap s' = heappush (heap s) (17, "a"%string) ∧
  db_log s' = db_log s ++ [("a"%string, mkRow 0 EmptyString done 0 1 10);
                           ("a"%string, mkRow 17 EmptyString scheduled 0 1 10)] ∧
  db s' !! "a"%string = Some (mkRow 17 EmptyString scheduled 0 1 10).
Proof.
  intros j s s'.
  assert (valid recurring_ops (boot ∅) = true) as H1 by by vm_compute.
  assert (inflight s "a" = 1%nat) as H2 by by vm_compute.
  assert (jobs s !! "a"%string = Some j) as H3 by by vm_compute.
  repeat (split; [assumption|]).
  destruct (C8_success ∅ recurring_ops "a" j 7 H1 H2 H3) as [_ Hrec].
  exact (Hrec eq_refl).
Defined.

(** Scenario 1, continued: the job that is not recurring ends [done], the
    heap is empty, and later iterations of the scheduler start nothing. *)
Example scenario1_trace :
  let s := run [OpCreate 0 "a" (delay_only 0); OpTick 0; OpFinish "a" Success 1;
                OpTick 2; OpTick 100] (boot ∅) in
  get_job "a" s = Some (mkJob "a" 0 EmptyString done 0 false 0) ∧
  heap s = [] ∧ threads s = [] ∧
  db_log s = [("a"%string, mkRow 0 EmptyString scheduled 0 0 0);
              ("a"%string, mkRow 0 EmptyString done 0 0 0)].
Proof. by vm_compute. Qed.

(** ** C9 *)




(** ** C10 *)

(** C10: after the startup load, every row of the table whose status is not
    [done], whatever that status is, is in [jobs] as the job built from the
    row, and the heap holds exactly one entry for its id, the entry
    [(run_at, id)] of the row. *)
Theorem C10_startup_load (t : gmap string Row) (k : string) (r : Row) :
  t !! k = Some r →
  row_status r ≠ done →
  jobs (boot t) !! k = Some (job_of_row k r) ∧
  pending (boot t) k = 1%nat ∧
  (row_run_at r, k) ∈ heap (boot t).
Proof.
  intros Hk Hst.
  pose proof (load_rows_spec (select_not_done t) (init_state t)
                (select_not_done_NoDup t)) as (Hin & _).
  by apply Hin, select_not_done_spec.
Qed.

Lemma C10_startup_load_witness :
  (mixed_table !! "x"%string = Some (mkRow 13 EmptyString dead 4 0 0) ∧
   row_status (mkRow 13 EmptyString dead 4 0 0) ≠ done ∧
   jobs (boot mixed_table) !! "x"%string = Some (mkJob "x" 13 EmptyString dead 4 false 0) ∧
   pending (boot mixed_table) "x" = 1%nat ∧
   (13, "x"%string) ∈ heap (boot mixed_table)) ∧
  (jobs (boot mixed_table) !! "c"%string = Some (mkJob "c" 12 EmptyString cancelled 0 false 0) ∧
   pending (boot mixed_table) "c" = 1%nat ∧
   (12, "c"%string) ∈ heap (boot mixed_table)) ∧
  (jobs (boot mixed_table) !! "r"%string = Some (mkJob "r" 11 EmptyString running 0 false 0) ∧
   pending (boot mixed_table) "r" = 1%nat ∧
   (11, "r"%string) ∈ heap (boot mixed_table)).
Proof.
  assert (mixed_table !! "x"%string = Some (mkRow 13 EmptyString dead 4 0 0)) as H1
    by by vm_compute.
  assert (row_status (mkRow 13 EmptyString dead 4 0 0) ≠ done) as H2 by done.
  split_and!; try assumption.
  - apply (C10_startup_load mixed_table "x" _ H1 H2).
  - apply (C10_startup_load mixed_table "x" _ H1 H2).
  - apply (C10_startup_load mixed_table "x" _ H1 H2).
  - apply (C10_startup_load mixed_table "c" (mkRow 12 EmptyString cancelled 0 0 0)); by vm_compute.
  - apply (C10_startup_load mixed_table "c" (mkRow 12 EmptyString cancelled 0 0 0)); by vm_compute.
  - apply (C10_startup_load mixed_table "c" (mkRow 12 EmptyString cancelled 0 0 0)); by vm_compute.
  - apply (C10_startup_load mixed_table "r" (mkRow 11 EmptyString running 0 0 0)); by vm_compute.
  - apply (C10_startup_load mixed_table "r" (mkRow 11 EmptyString running 0 0 0)); by vm_compute.
  - apply (C10_startup_load mixed_table "r" (mkRow 11 EmptyString running 0 0 0)); by vm_compute.
Defined.


(** * Further properties of the code *)

(** ** Steps, case by case *)

Section Shapes.

Implicit Types (s : State) (k : string) (j : Job).

Lemma step_shape_of op s :
  Inv s → enabled op s = true → step_shape s op (step op s).
Proof.
  intros HI He. destruct op as [now k data|k|now|k o now]; cbn [step enabled] in *.
  - apply bool_decide_eq_true in He. rewrite create_job_eq. cbn [fst].
    by apply shape_create.
  - destruct (jobs s !! k) as [j|] eqn:Hk.
    + rewrite (delete_job_found k s j Hk). cbn [fst].
      rewrite (inv_id s HI k j Hk). by apply shape_cancel.
    + unfold delete_job. rewrite Hk. cbn [fst]. apply shape_nothing. right. eauto.
  - destruct (scheduler_loop_cases now s) as [->|(t & k & h' & Hpop & Hdue & ->)].
    { apply shape_nothing. by left. }
    destruct (heappop_Some _ _ _ Hpop) as [_ Hperm].
    destruct (inv_heap s HI (t, k)) as [j Hk]; [rewrite Hperm; left|].
    simpl in Hk. rewrite Hk. by apply (shape_dispatch s now t k h' j).
  - apply bool_decide_eq_true in He.
    destruct (inv_threads s HI k He) as [j Hk].
    pose proof (inv_id s HI k j Hk) as Hid.
    destruct (inv_once s HI k j Hk) as (Hle & _ & _).
    assert (0 < inflight s k)%nat as Hfl by by apply count_thread_pos.
    assert (execute_job o now k s =
            mkState (<[k := final_job o now j]> (jobs s))
                    (if requeues o j
                     then heappush (heap s) (run_at (final_job o now j), k)
                     else heap s)
                    (<[k := row_of_job (final_job o now j)]> (db s))
                    (db_log s ++ writes o now j)
                    (end_thread k (threads s))) as ->.
    { pose proof (execute_job_jobs o now k s j Hk) as H1.
      pose proof (execute_job_heap o now k s j Hk) as H2.
      pose proof (execute_job_db o now k s j Hk) as H3.
      pose proof (execute_job_db_log o now k s j Hk) as H4.
      pose proof (execute_job_threads o now k s) as H5.
      rewrite Hid in H2, H3.
      destruct (execute_job o now k s). simpl in *. by subst. }
    apply shape_finish; try done; lia.
Qed.

(** An invariant of the steps holds after every run that starts where it
    holds. *)
Lemma run_invariant (P : State → Prop) ops s :
  (∀ s op, Inv s → P s → enabled op s = true → P (step op s)) →
  Inv s → P s → valid ops s = true → P (run ops s).
Proof.
  intros Hstep. revert s. induction ops as [|op ops IH]; intros s HI HP Hv; [done|].
  simpl in Hv. apply andb_true_iff in Hv as [He Hv].
  apply (IH (step op s)); [by apply Inv_step | by apply Hstep | done].
Qed.

End Shapes.

(** ** The table and the jobs in memory *)

Section Durability.

Implicit Types (s : State) (k : string) (j : Job) (t : gmap string Row).

Lemma job_of_row_of_job j : job_of_row (id j) (row_of_job j) = j.
Proof. destruct j as [i ra p st re [] iv]; reflexivity. Qed.

Lemma job_of_row_of_job_at k j : id j = k → job_of_row k (row_of_job j) = j.
Proof. intros <-. apply job_of_row_of_job. Qed.

(** What [load_jobs_at_start] makes of a table, key by key. *)
Lemma boot_lookup t k :
  jobs (boot t) !! k =
    match t !! k with
    | Some r => if decide (row_status r = done) then None
                else Some (job_of_row k r)
    | None => None
    end ∧
  pending (boot t) k = match jobs (boot t) !! k with
                       | Some _ => 1%nat
                       | None => 0%nat
                       end.
Proof.
  pose proof (load_rows_spec (select_not_done t) (init_state t)
                (select_not_done_NoDup t)) as (Hin & Hout & _).
  change (foldl load_row (init_state t) (select_not_done t)) with (boot t) in *.
  destruct (t !! k) as [r|] eqn:Hk; [destruct (decide (row_status r = done))|].
  - destruct (Hout k) as [-> ->]; [|done].
    intros [[k' r'] [-> Hr']]%list_elem_of_fmap.
    apply select_not_done_spec in Hr' as [? ?]. simpl in *. congruence.
  - destruct (Hin k r) as (-> & -> & _); [by apply select_not_done_spec|done].
  - destruct (Hout k) as [-> ->]; [|done].
    intros [[k' r'] [-> Hr']]%list_elem_of_fmap.
    apply select_not_done_spec in Hr' as [? ?]. simpl in *. congruence.
Qed.

Lemma boot_frame t :
  db (boot t) = t ∧ db_log (boot t) = [] ∧ threads (boot t) = [].
Proof.
  pose proof (load_rows_spec (select_not_done t) (init_state t)
                (select_not_done_NoDup t)) as (_ & _ & _ & Ht & Hd & Hl).
  done.
Qed.

Lemma boot_not_done t k j : jobs (boot t) !! k = Some j → status j ≠ done.
Proof.
  rewrite (proj1 (boot_lookup t k)). destruct (t !! k) as [r|]; [|done].
  destruct (decide _); [done|]. by intros [= <-].
Qed.

(** A write of job [j'], filed under its own id, to [jobs] and to the table
    keeps the table a mirror of [jobs]. *)
Lemma mirrored_write t s k j' h log th :
  mirrored t s → id j' = k →
  mirrored t (mkState (<[k := j']> (jobs s)) h
                      (<[k := row_of_job j']> (db s)) log th).
Proof.
  intros [Hm Hn] Hid. split; simpl.
  - intros k0 j0. rewrite !lookup_insert. case_decide; [|by apply Hm].
    intros [= <-]. exists (row_of_job j'). split; [done|].
    subst k0. by apply job_of_row_of_job_at.
  - intros k0. rewrite !lookup_insert. case_decide; [done|apply Hn].
Qed.

Lemma mirrored_step t op s :
  Inv s → mirrored t s → enabled op s = true → mirrored t (step op s).
Proof.
  intros HI Hm He.
  destruct (step_shape_of op s HI He)
    as [now k data Hk|k j Hk|op _|now t0 k h' j Hpop Hdue Hk|k o now j Hin Hk Hid Hp Hf].
  - apply mirrored_write; [exact Hm | reflexivity].
  - apply mirrored_write; [done|]. simpl. by apply (inv_id s HI).
  - done.
  - exact Hm.
  - apply mirrored_write; [done|].
    unfold final_job. by destruct o; [destruct (recurring j)|destruct (_ <=? _)].
Qed.

Lemma mirrored_boot t : mirrored t (boot t).
Proof.
  destruct (boot_frame t) as (Hd & _). split.
  - intros k j. rewrite (proj1 (boot_lookup t k)), Hd.
    destruct (t !! k) as [r|]; [|done]. destruct (decide _); [done|].
    intros [= <-]. eauto.
  - intros k _. by rewrite Hd.
Qed.

Lemma mirrored_run t ops :
  valid ops (boot t) = true → mirrored t (run ops (boot t)).
Proof.
  intros Hv. apply (run_invariant (mirrored t)); try done.
  - intros s op HI Hm He. by apply mirrored_step.
  - apply Inv_boot.
  - apply mirrored_boot.
Qed.

(** No step takes a job out of [jobs]. *)
Lemma run_known ops s k : is_Some (jobs s !! k) → is_Some (jobs (run ops s) !! k).
Proof.
  revert s. induction ops as [|op ops IH]; intros s Hk; [done|].
  simpl. by apply IH, step_known.
Qed.

End Durability.

Section DurabilityTheorems.

Implicit Types (s : State) (k : string) (j : Job) (t : gmap string Row).

Lemma boot_entry t k r :
  t !! k = Some r → row_status r ≠ done → (row_run_at r, k) ∈ heap (boot t).
Proof.
  intros Hk Hst.
  pose proof (load_rows_spec (select_not_done t) (init_state t)
                (select_not_done_NoDup t)) as (Hin & _).
  by apply Hin, select_not_done_spec.
Qed.

(** A job written by [persist_job] and read back as [load_jobs_at_start]
    reads a row is the same job, field by field.  The other way round a row
    survives decoding and encoding exactly when its [recurring] column holds 0
    or 1, which is all [persist_job] ever writes there. *)
Theorem persist_load_roundtrip (s : State) (j : Job) :
  job_of_row (id j) <$> db (persist_job j s) !! id j = Some j ∧
  ∀ k r, row_of_job (job_of_row k r) = r ↔
         row_recurring r = 0 ∨ row_recurring r = 1.
Proof.
  split.
  - simpl. rewrite lookup_insert_eq. simpl. by rewrite job_of_row_of_job.
  - intros k [ra p st re rc iv]. unfold row_of_job, job_of_row. simpl. split.
    + intros [= Hrc]. destruct (Z.eqb_spec rc 0); simpl in Hrc; lia.
    + intros [-> | ->]; reflexivity.
Qed.

(** In a running process the table mirrors the jobs in memory at every point
    between two steps: the row stored under the id of a job decodes to the job
    as [jobs] holds it, and a row under an id that [jobs] does not hold is the
    row the table had at startup. *)
Theorem table_mirrors_jobs (t : gmap string Row) (ops : list Op) :
  valid ops (boot t) = true →
  let s := run ops (boot t) in
  (∀ k j, get_job k s = Some j → job_of_row k <$> db s !! k = Some j) ∧
  (∀ k, get_job k s = None → db s !! k = t !! k).
Proof.
  intros Hv s. subst s. destruct (mirrored_run t ops Hv) as [Hm Hn]. split.
  - intros k j Hk. destruct (Hm k j Hk) as (r & -> & <-). done.
  - exact Hn.
Qed.

Lemma table_mirrors_jobs_witness :
  let s := run four_failures (boot ∅) in
  valid four_failures (boot ∅) = true ∧
  (∀ k j, get_job k s = Some j → job_of_row k <$> db s !! k = Some j) ∧
  (∀ k, get_job k s = None → db s !! k = (∅ : gmap string Row) !! k).
Proof.
  intros s.
  assert (valid four_failures (boot ∅) = true) as H1 by by vm_compute.
  split; [exact H1|]. exact (table_mirrors_jobs ∅ four_failures H1).
Defined.

(** Stopping the process between two steps and starting it again brings back
    exactly the jobs whose status is not [done], each as it was, each with one
    heap entry at its [run_at]; no thread is running, jobs that were being
    executed are queued again, and the table is as it was left. *)
Theorem restart_restores (t : gmap string Row) (ops : list Op) :
  valid ops (boot t) = true →
  let s := run ops (boot t) in
  let s' := restart s in
  jobs s' = filter (λ kj, status kj.2 ≠ done) (jobs s) ∧
  (∀ k j, jobs s' !! k = Some j →
     pending s' k = 1%nat ∧ (run_at j, k) ∈ heap s') ∧
  (∀ k, jobs s' !! k = None → pending s' k = 0%nat) ∧
  threads s' = [] ∧ db s' = db s ∧ db_log s' = [].
Proof.
  intros Hv s s'. destruct (mirrored_run t ops Hv) as [Hm Hn]. fold s in Hm, Hn.
  change s' with (boot (db s)).
  destruct (boot_frame (db s)) as (Hd & Hl & Ht).
  assert (∀ k j, jobs (boot (db s)) !! k = Some j ↔
                 jobs s !! k = Some j ∧ status j ≠ done) as Hjobs.
  { intros k j. rewrite (proj1 (boot_lookup (db s) k)). split.
    - destruct (db s !! k) as [r|] eqn:Hr; [|done].
      destruct (decide (row_status r = done)) as [|Hst]; [done|].
      intros [= <-]. destruct (jobs s !! k) as [j0|] eqn:Hk.
      + destruct (Hm k j0 Hk) as (r0 & Hr0 & <-). by simplify_eq.
      + rewrite (Hn k Hk) in Hr.
        assert (jobs (boot t) !! k = None) as Hb.
        { destruct (jobs (boot t) !! k) eqn:Hb; [|done].
          destruct (run_known ops (boot t) k) as [? ?]; [by eauto|].
          unfold s in Hk. congruence. }
        rewrite (proj1 (boot_lookup t k)), Hr in Hb.
        by destruct (decide (row_status r = done)).
    - intros [Hk Hst]. destruct (Hm k j Hk) as (r & -> & <-).
      by rewrite decide_False by done. }
  split_and!; try done.
  - apply map_eq. intros k. apply option_eq. intros j.
    rewrite Hjobs, map_lookup_filter_Some. done.
  - intros k j Hk. rewrite (proj2 (boot_lookup (db s) k)), Hk. split; [done|].
    rewrite (proj1 (boot_lookup (db s) k)) in Hk.
    destruct (db s !! k) as [r|] eqn:Hr; [|done].
    destruct (decide (row_status r = done)); [done|]. injection Hk as <-.
    by apply boot_entry.
  - intros k Hk. by rewrite (proj2 (boot_lookup (db s) k)), Hk.
Qed.

Lemma restart_restores_witness :
  let ops := [OpCreate 0 "a" (delay_only 0); OpCreate 0 "b" (delay_only 5);
              OpTick 0; OpFinish "a" Success 1; OpTick 5] in
  let s := run ops (boot ∅) in
  let s' := restart s in
  valid ops (boot ∅) = true ∧
  get_job "a" s' = None ∧
  get_job "b" s' = Some (mkJob "b" 5 EmptyString scheduled 0 false 0) ∧
  threads s = ["b"%string] ∧
  jobs s' = filter (λ kj, status kj.2 ≠ done) (jobs s) ∧
  (∀ k j, jobs s' !! k = Some j →
     pending s' k = 1%nat ∧ (run_at j, k) ∈ heap s') ∧
  (∀ k, jobs s' !! k = None → pending s' k = 0%nat) ∧
  threads s' = [] ∧ db s' = db s ∧ db_log s' = [].
Proof.
  intros ops s s'.
  assert (valid ops (boot ∅) = true) as H1 by by vm_compute.
  split; [exact H1|]. split; [by vm_compute|]. split; [by vm_compute|].
  split; [by vm_compute|]. exact (restart_restores ∅ ops H1).
Defined.

(** The boot sequence reads the table and never writes it: it creates an
    empty table when the file has none and keeps every row otherwise; it puts
    in [jobs] the rows whose status is not [done], decoded, and no others;
    it pushes one entry for each of them and none else; and booting again on
    the same file gives the same state. *)
Theorem boot_reads_not_done (file : option (gmap string Row)) :
  let s := main file in
  (∀ k, get_job k s =
        init_db file !! k ≫= λ r,
          if decide (row_status r = done) then None else Some (job_of_row k r)) ∧
  (∀ k, pending s k = match get_job k s with Some _ => 1 | None => 0 end%nat) ∧
  db s = init_db file ∧ db_log s = [] ∧ threads s = [] ∧
  jobs (main None) = ∅ ∧ heap (main None) = [] ∧
  restart s = s.
Proof.
  intros s. change s with (boot (init_db file)).
  destruct (boot_frame (init_db file)) as (Hd & Hl & Ht).
  split_and!; try done.
  - intros k. unfold get_job. rewrite (proj1 (boot_lookup _ k)).
    by destruct (init_db file !! k).
  - intros k. apply boot_lookup.
  - unfold restart, main. simpl. by rewrite Hd.
Qed.

End DurabilityTheorems.

(** ** The scheduler loop *)

Section Scheduler.

Implicit Types (s : State) (k : string) (j : Job) (t : gmap string Row).

(** A job under a fresh id enters [jobs] and the heap with its [run_at]. *)
Lemma keyed_add s k j tbl log th :
  keyed s → jobs s !! k = None →
  keyed (mkState (<[k := j]> (jobs s)) (heappush (heap s) (run_at j, k)) tbl log th).
Proof.
  intros Hkey Hk e. simpl. rewrite elem_of_heappush. intros [->|He]; simpl.
  - rewrite lookup_insert_eq. eauto.
  - destruct (Hkey e He) as (j0 & Hj0 & Hra).
    rewrite lookup_insert_ne by congruence. eauto.
Qed.

Lemma keyed_step op s : Inv s → keyed s → enabled op s = true → keyed (step op s).
Proof.
  intros HI Hkey He.
  destruct (step_shape_of op s HI He)
    as [now k data Hk|k j Hk|op _|now t0 k h' j Hpop Hdue Hk|k o now j Hin Hk Hid Hp Hf].
  - by apply keyed_add.
  - intros e He'. simpl in *. destruct (Hkey e He') as (j0 & Hj0 & Hra).
    rewrite lookup_insert. case_decide; [|eauto].
    subst k. simplify_eq. eauto.
  - done.
  - intros e He'. simpl in *. apply Hkey.
    destruct (heappop_Some _ _ _ Hpop) as [_ ->]. by right.
  - assert (∀ e : Entry, e ∈ heap s → e.2 ≠ k) as Hother
      by by apply count_id_zero.
    intros e. simpl. rewrite lookup_insert.
    destruct (requeues o j).
    + rewrite elem_of_heappush. intros [->|He']; simpl.
      * rewrite decide_True by done. eauto.
      * rewrite decide_False by (specialize (Hother e He'); congruence).
        by apply Hkey.
    + intros He'. rewrite decide_False by (specialize (Hother e He'); congruence).
      by apply Hkey.
Qed.

Lemma keyed_load_rows (rows : list (string * Row)) s :
  NoDup rows.*1 → (∀ k r, (k, r) ∈ rows → jobs s !! k = None) →
  keyed s → keyed (foldl load_row s rows).
Proof.
  revert s. induction rows as [|[k0 r0] rows IH]; intros s Hnd Hrows Hkey; [done|].
  apply NoDup_cons in Hnd as [Hk0 Hnd]. simpl. apply IH; [done| |].
  - intros k r Hkr. rewrite load_row_eq. simpl.
    rewrite lookup_insert_ne; [apply (Hrows k r); by right|].
    intros ->. apply Hk0. apply list_elem_of_fmap. by exists (k, r).
  - rewrite load_row_eq. apply (keyed_add s k0 (job_of_row k0 r0)); [done|].
    apply (Hrows k0 r0). left.
Qed.

Lemma keyed_boot t : keyed (boot t).
Proof.
  apply keyed_load_rows.
  - apply select_not_done_NoDup.
  - intros k r _. apply lookup_empty.
  - by intros e ?%elem_of_nil.
Qed.

Lemma keyed_run t ops : valid ops (boot t) = true → keyed (run ops (boot t)).
Proof.
  intros Hv. apply (run_invariant keyed); try done.
  - intros s op HI Hk He. by apply keyed_step.
  - apply Inv_boot.
  - apply keyed_boot.
Qed.

(** The first component of the least tuple is the least [run_at]. *)
Lemma entry_le_run_at (x y : Entry) : entry_le x y → x.1 ≤ y.1.
Proof.
  unfold entry_le. intros Hyx. apply not_true_iff_false in Hyx.
  rewrite entry_ltb_spec in Hyx. lia.
Qed.

(** When [heap[0]] is due the iteration pops it. *)
Lemma scheduler_loop_pops now s top :
  heap0 (heap s) = Some top → top.1 ≤ now →
  ∃ h', heappop (heap s) = Some (top, h') ∧ heap (scheduler_loop now s) = h'.
Proof.
  intros Htop Hdue. unfold scheduler_loop. rewrite Htop.
  destruct (Z.leb_spec top.1 now); [|lia].
  destruct (heappop (heap s)) as [[[t0 k] h']|] eqn:Hpop.
  - destruct (heappop_Some _ _ _ Hpop) as [Htop' _].
    rewrite Htop in Htop'. simplify_eq. exists h'. split; [done|].
    simpl. by destruct (jobs s !! k).
  - apply heappop_None in Hpop. by rewrite Hpop in Htop.
Qed.

(** In a heap that holds a due entry, [heap[0]] is due. *)
Lemma due_root h (e : Entry) now :
  heap_ok h → e ∈ h → e.1 ≤ now → ∃ top, heap0 h = Some top ∧ top.1 ≤ now.
Proof.
  intros Hok He Hdue. destruct h as [|top h]; [by apply elem_of_nil in He|].
  exists top. split; [done|].
  apply list_elem_of_lookup in He as [i Hi].
  pose proof (heap_ok_root (top :: h) top i e Hok eq_refl Hi) as Hle.
  apply entry_le_run_at in Hle. lia.
Qed.

Lemma iterations_Inv nows s : Inv s → Inv (iterations nows s).
Proof.
  revert s. induction nows as [|now nows IH]; intros s HI; [done|].
  simpl. by apply IH, Inv_tick.
Qed.

Lemma iterations_threads nows s k : k ∈ threads s → k ∈ threads (iterations nows s).
Proof.
  revert s. induction nows as [|now nows IH]; intros s Hk; [done|].
  simpl. apply IH.
  destruct (scheduler_loop_cases now s) as [->|(t0 & k0 & h' & _ & _ & ->)];
    [done|].
  simpl. destruct (jobs s !! k0); [|done]. apply elem_of_app. by left.
Qed.

End Scheduler.

Section SchedulerTheorems.

Implicit Types (s : State) (k : string) (j : Job) (t : gmap string Row).

(** In a running process every heap entry belongs to a job that [jobs] holds
    under that id, and its first component is the [run_at] the job has now:
    the time shown by [GET /jobs/id] is the time the entry becomes due.
    Every thread, too, works on a job that [jobs] holds, and a job is filed
    under its own id. *)
Theorem heap_entries_are_current (t : gmap string Row) (ops : list Op) :
  valid ops (boot t) = true →
  let s := run ops (boot t) in
  (∀ e : Entry, e ∈ heap s →
     ∃ j, get_job e.2 s = Some j ∧ run_at j = e.1 ∧ id j = e.2) ∧
  (∀ k, k ∈ threads s → is_Some (get_job k s)) ∧
  (∀ k j, get_job k s = Some j → id j = k).
Proof.
  intros Hv s. pose proof (Inv_run ops (boot t) (Inv_boot t) Hv) as HI.
  pose proof (keyed_run t ops Hv) as Hkey. split_and!.
  - intros e He. destruct (Hkey e He) as (j & Hj & Hra).
    exists j. split_and!; [done|done|]. by apply (inv_id _ HI).
  - apply (inv_threads _ HI).
  - apply (inv_id _ HI).
Qed.

Lemma heap_entries_are_current_witness :
  let ops := take 3 four_failures in
  let s := run ops (boot ∅) in
  valid ops (boot ∅) = true ∧
  heap s = [(3, "a"%string)] ∧
  (∀ e : Entry, e ∈ heap s →
     ∃ j, get_job e.2 s = Some j ∧ run_at j = e.1 ∧ id j = e.2) ∧
  (∀ k, k ∈ threads s → is_Some (get_job k s)) ∧
  (∀ k j, get_job k s = Some j → id j = k).
Proof.
  intros ops s.
  assert (valid ops (boot ∅) = true) as H1 by by vm_compute.
  split; [exact H1|]. split; [by vm_compute|].
  exact (heap_entries_are_current ∅ ops H1).
Defined.

(** An iteration of the scheduler loop never starts a job before its time and
    never more than one job: it changes neither [jobs] nor the table, and it
    either leaves the state as it is or removes one entry from the heap and
    starts one thread, for a job whose [run_at] is not later than the clock
    reading. *)
Theorem dispatch_not_early (t : gmap string Row) (ops : list Op) (now : Z) :
  valid ops (boot t) = true →
  let s := run ops (boot t) in
  let s' := scheduler_loop now s in
  jobs s' = jobs s ∧ db s' = db s ∧ db_log s' = db_log s ∧
  (s' = s ∨
   ∃ k j, get_job k s = Some j ∧ run_at j ≤ now ∧
          heap s ≡ₚ (run_at j, k) :: heap s' ∧ threads s' = threads s ++ [k]).
Proof.
  intros Hv s s'. pose proof (Inv_run ops (boot t) (Inv_boot t) Hv) as HI.
  pose proof (keyed_run t ops Hv) as Hkey. fold s in HI, Hkey. subst s'.
  destruct (scheduler_loop_cases now s) as [->|(t0 & k & h' & Hpop & Hdue & ->)];
    [by split_and!; try left|].
  destruct (heappop_Some _ _ _ Hpop) as [_ Hperm].
  destruct (Hkey (t0, k)) as (j & Hk & Hra); [rewrite Hperm; left|].
  simpl in *. rewrite Hk. split_and!; try done.
  right. exists k, j. rewrite Hra. by split_and!.
Qed.

Lemma dispatch_not_early_witness :
  let ops := [OpCreate 0 "a" (delay_only 60)] in
  let s := run ops (boot ∅) in
  valid ops (boot ∅) = true ∧
  scheduler_loop 59 s = s ∧
  threads (scheduler_loop 60 s) = ["a"%string] ∧
  jobs (scheduler_loop 60 s) = jobs s ∧ db (scheduler_loop 60 s) = db s ∧
  db_log (scheduler_loop 60 s) = db_log s ∧
  (scheduler_loop 60 s = s ∨
   ∃ k j, get_job k s = Some j ∧ run_at j ≤ 60 ∧
          heap s ≡ₚ (run_at j, k) :: heap (scheduler_loop 60 s) ∧
          threads (scheduler_loop 60 s) = threads s ++ [k]).
Proof.
  intros ops s.
  assert (valid ops (boot ∅) = true) as H1 by by vm_compute.
  split; [exact H1|]. split; [by vm_compute|]. split; [by vm_compute|].
  exact (dispatch_not_early ∅ ops 60 H1).
Defined.

(** An iteration of the scheduler loop is idle exactly when no entry of the
    heap is due: as soon as some job's time has come, whichever job it is, the
    iteration pops an entry. *)
Theorem idle_iff_nothing_due (t : gmap string Row) (ops : list Op) (now : Z) :
  valid ops (boot t) = true →
  let s := run ops (boot t) in
  scheduler_loop now s = s ↔ ∀ e : Entry, e ∈ heap s → now < e.1.
Proof.
  intros Hv s. pose proof (Inv_run ops (boot t) (Inv_boot t) Hv) as HI.
  fold s in HI. split.
  - intros Hidle e He. destruct (Z.lt_ge_cases now e.1) as [|Hdue]; [done|].
    destruct (due_root (heap s) e now (inv_heap_ok s HI) He Hdue)
      as (top & Htop & Hdue').
    destruct (scheduler_loop_pops now s top Htop Hdue') as (h' & Hpop & Hh').
    rewrite Hidle in Hh'. destruct (heappop_Some _ _ _ Hpop) as [_ Hperm].
    apply Permutation_length in Hperm. rewrite Hh' in Hperm. simpl in Hperm. lia.
  - intros Hnone.
    destruct (scheduler_loop_cases now s) as [->|(t0 & k & h' & Hpop & Hdue & _)];
      [done|].
    destruct (heappop_Some _ _ _ Hpop) as [_ Hperm].
    assert ((t0, k) ∈ heap s) as Hin by (rewrite Hperm; left).
    apply Hnone in Hin. simpl in Hin. lia.
Qed.

Lemma idle_iff_nothing_due_witness :
  let ops := [OpCreate 0 "a" (delay_only 60)] in
  valid ops (boot ∅) = true ∧
  (scheduler_loop 59 (run ops (boot ∅)) = run ops (boot ∅) ↔
   ∀ e : Entry, e ∈ heap (run ops (boot ∅)) → 59 < e.1).
Proof.
  intros ops.
  assert (valid ops (boot ∅) = true) as H1 by by vm_compute.
  split; [exact H1|]. exact (idle_iff_nothing_due ∅ ops 59 H1).
Defined.

(** Iterations that follow one another dispatch in ascending order. *)
Lemma iterations_ascend nows s :
  Inv s →
  ∃ d : list Entry,
    threads (iterations nows s) = threads s ++ d.*2 ∧
    heap s ≡ₚ d ++ heap (iterations nows s) ∧
    StronglySorted entry_le d ∧
    (∀ x y : Entry, x ∈ d → y ∈ heap (iterations nows s) → entry_le x y) ∧
    (∀ x : Entry, x ∈ d → ∃ now, now ∈ nows ∧ x.1 ≤ now).
Proof.
  revert s. induction nows as [|now nows IH]; intros s HI.
  { exists []. simpl. rewrite app_nil_r. split_and!; try done.
    - constructor.
    - by intros x y ?%elem_of_nil.
    - by intros x ?%elem_of_nil. }
  simpl. destruct (IH _ (Inv_tick now s HI)) as (d & Hth & Hperm & Hsort & Hle & Hdue).
  destruct (scheduler_loop_cases now s) as [Hidle|(t0 & k & h' & Hpop & Hd & Hs1)].
  { rewrite Hidle in *. exists d. split_and!; try done.
    intros x Hx. destruct (Hdue x Hx) as (n & Hn & ?). exists n. split; [by right|done]. }
  destruct (heappop_Some _ _ _ Hpop) as [_ Hperm0].
  destruct (inv_heap s HI (t0, k)) as [j Hk]; [rewrite Hperm0; left|].
  simpl in Hk. rewrite Hk in Hs1. rewrite Hs1 in *. simpl in Hth, Hperm.
  pose proof (heappop_least _ _ _ (inv_heap_ok s HI) Hpop) as Hleast.
  exists ((t0, k) :: d). split_and!.
  - rewrite Hth. simpl. by rewrite <-app_assoc.
  - rewrite Hperm0. simpl. by rewrite <-Hperm.
  - constructor; [done|]. apply Forall_forall. intros y Hy.
    apply Hleast. rewrite Hperm. apply elem_of_app. by left.
  - intros x y [->|Hx]%elem_of_cons Hy; [|by apply Hle].
    apply Hleast. rewrite Hperm. apply elem_of_app. by right.
  - intros x [->|Hx]%elem_of_cons.
    + exists now. split; [left|done].
    + destruct (Hdue x Hx) as (n & Hn & ?). exists n. split; [by right|done].
Qed.

(** Consecutive iterations of the scheduler loop dispatch jobs in ascending
    order of their entries [(run_at, id)], whatever the clock readings are:
    the entries popped form an ascending list, each was due at one of the
    readings, none of them is greater than an entry left in the heap, and
    together with the entries left they are the entries the heap held. *)
Theorem consecutive_pops_ascend (t : gmap string Row) (ops : list Op)
    (nows : list Z) :
  valid ops (boot t) = true →
  let s := run ops (boot t) in
  let s' := iterations nows s in
  ∃ d : list Entry,
    threads s' = threads s ++ d.*2 ∧
    heap s ≡ₚ d ++ heap s' ∧
    StronglySorted entry_le d ∧
    (∀ x y : Entry, x ∈ d → y ∈ heap s' → entry_le x y) ∧
    (∀ x : Entry, x ∈ d → ∃ now, now ∈ nows ∧ x.1 ≤ now).
Proof.
  intros Hv s s'. apply iterations_ascend.
  apply (Inv_run ops (boot t) (Inv_boot t) Hv).
Qed.

Lemma consecutive_pops_ascend_witness :
  let ops := [OpCreate 0 "c" (delay_only 7); OpCreate 0 "b" (delay_only 3);
              OpCreate 0 "a" (delay_only 3); OpCreate 0 "d" (delay_only 50)] in
  let s := run ops (boot ∅) in
  let s' := iterations [1; 5; 5; 9; 9] s in
  valid ops (boot ∅) = true ∧
  threads s' = ["a"%string; "b"%string; "c"%string] ∧
  heap s' = [(50, "d"%string)] ∧
  ∃ d : list Entry,
    threads s' = threads s ++ d.*2 ∧
    heap s ≡ₚ d ++ heap s' ∧
    StronglySorted entry_le d ∧
    (∀ x y : Entry, x ∈ d → y ∈ heap s' → entry_le x y) ∧
    (∀ x : Entry, x ∈ d → ∃ now, now ∈ [1; 5; 5; 9; 9] ∧ x.1 ≤ now).
Proof.
  intros ops s s'.
  assert (valid ops (boot ∅) = true) as H1 by by vm_compute.
  split; [exact H1|]. split; [by vm_compute|]. split; [by vm_compute|].
  exact (consecutive_pops_ascend ∅ ops [1; 5; 5; 9; 9] H1).
Defined.

Lemma iterations_reach nows s (t0 : Z) k :
  Inv s → (t0, k) ∈ heap s → Forall (λ now, t0 ≤ now) nows →
  (length (heap s) ≤ length nows)%nat →
  k ∈ threads (iterations nows s).
Proof.
  revert s. induction nows as [|now nows IH]; intros s HI Hin Hall Hlen.
  { destruct (heap s); [by apply elem_of_nil in Hin | simpl in Hlen; lia]. }
  apply Forall_cons in Hall as [Hnow Hall]. simpl.
  destruct (due_root (heap s) (t0, k) now (inv_heap_ok s HI) Hin Hnow)
    as (top & Htop & Hdue).
  destruct (scheduler_loop_pops now s top Htop Hdue) as (h' & Hpop & Hh').
  destruct (heappop_Some _ _ _ Hpop) as [_ Hperm].
  destruct top as [t1 k1].
  destruct (inv_heap s HI (t1, k1)) as [j1 Hk1]; [rewrite Hperm; left|].
  simpl in Hk1.
  pose proof (scheduler_loop_due now s t1 k1 h' j1 Hpop Hdue Hk1) as Hs1.
  rewrite Hperm in Hin. apply elem_of_cons in Hin as [[= <- <-]|Hin].
  - apply iterations_threads. rewrite Hs1. simpl. apply elem_of_app. right. left.
  - apply IH.
    + by apply Inv_tick.
    + by rewrite Hh'.
    + done.
    + rewrite Hh'. apply Permutation_length in Hperm. simpl in *. lia.
Qed.

(** No pending job is starved: once its time has come, a job that has an
    entry in the heap is dispatched within as many consecutive iterations as
    the heap has entries. *)
Theorem due_job_is_dispatched (t : gmap string Row) (ops : list Op)
    (nows : list Z) (t0 : Z) (k : string) :
  valid ops (boot t) = true →
  let s := run ops (boot t) in
  (t0, k) ∈ heap s →
  Forall (λ now, t0 ≤ now) nows →
  (length (heap s) ≤ length nows)%nat →
  k ∈ threads (iterations nows s).
Proof.
  intros Hv s. apply iterations_reach.
  apply (Inv_run ops (boot t) (Inv_boot t) Hv).
Qed.

Lemma due_job_is_dispatched_witness :
  let ops := [OpCreate 0 "c" (delay_only 7); OpCreate 0 "b" (delay_only 3);
              OpCreate 0 "a" (delay_only 3)] in
  let s := run ops (boot ∅) in
  valid ops (boot ∅) = true ∧
  (7, "c"%string) ∈ heap s ∧
  Forall (λ now, 7 ≤ now) [7; 8; 8] ∧
  (length (heap s) ≤ length [7; 8; 8])%nat ∧
  "c"%string ∈ threads (iterations [7; 8; 8] s).
Proof.
  intros ops s.
  assert (valid ops (boot ∅) = true) as H1 by by vm_compute.
  assert ((7, "c"%string) ∈ heap s) as H2
    by (vm_compute; apply list_elem_of_In; simpl; auto).
  assert (Forall (λ now, 7 ≤ now) [7; 8; 8]) as H3
    by (repeat constructor; lia).
  assert (length (heap s) ≤ length [7; 8; 8])%nat as H4 by (vm_compute; lia).
  repeat (split; [assumption|]).
  exact (due_job_is_dispatched ∅ ops [7; 8; 8] 7 "c" H1 H2 H3 H4).
Defined.

End SchedulerTheorems.

(** ** Jobs *)

Section Jobs.

Implicit Types (s : State) (k : string) (j : Job) (t : gmap string Row).

Lemma run_app ops1 ops2 s : run (ops1 ++ ops2) s = run ops2 (run ops1 s).
Proof. unfold run. apply foldl_app. Qed.

Lemma valid_app ops1 ops2 s :
  valid (ops1 ++ ops2) s = valid ops1 s && valid ops2 (run ops1 s).
Proof.
  revert s. induction ops1 as [|op ops1 IH]; intros s; [done|].
  simpl. by rewrite IH, andb_assoc.
Qed.

Lemma same_identity_refl j : same_identity j j.
Proof. by repeat split. Qed.

Lemma final_job_identity o now j :
  same_identity j (final_job o now j) ∧
  retries j ≤ retries (final_job o now j).
Proof.
  destruct j as [i ra p st re rc iv]. unfold final_job, same_identity. simpl.
  destruct o; [destruct rc|destruct (re + 1 <=? 3)]; simpl;
    split_and!; try done; lia.
Qed.

Lemma step_identity op s k j :
  Inv s → enabled op s = true → jobs s !! k = Some j →
  ∃ j', jobs (step op s) !! k = Some j' ∧ same_identity j j' ∧
        retries j ≤ retries j'.
Proof.
  intros HI He Hk.
  destruct (step_shape_of op s HI He)
    as [now k0 data Hk0|k0 j0 Hk0|op _|now t0 k0 h' j0 Hpop Hdue Hk0
        |k0 o now j0 Hin Hk0 Hid Hp Hf]; simpl.
  - rewrite lookup_insert_ne by congruence.
    exists j. split_and!; [done|apply same_identity_refl|lia].
  - rewrite lookup_insert. case_decide.
    + subst k0. assert (j0 = j) as -> by congruence.
      exists (set_status cancelled j).
      split_and!; [done|by repeat split|simpl; lia].
    + exists j. split_and!; [done|apply same_identity_refl|lia].
  - exists j. split_and!; [done|apply same_identity_refl|lia].
  - exists j. split_and!; [done|apply same_identity_refl|lia].
  - rewrite lookup_insert. case_decide.
    + subst k0. assert (j0 = j) as -> by congruence.
      exists (final_job o now j). split; [done|]. apply final_job_identity.
    + exists j. split_and!; [done|apply same_identity_refl|lia].
Qed.

Lemma run_identity ops s k j :
  Inv s → valid ops s = true → jobs s !! k = Some j →
  ∃ j', jobs (run ops s) !! k = Some j' ∧ same_identity j j' ∧
        retries j ≤ retries j'.
Proof.
  revert s j. induction ops as [|op ops IH]; intros s j HI Hv Hk.
  { exists j. split_and!; [done|apply same_identity_refl|lia]. }
  simpl in Hv. apply andb_true_iff in Hv as [He Hv].
  destruct (step_identity op s k j HI He Hk) as (j1 & Hk1 & Hid1 & Hr1).
  destruct (IH (step op s) j1 (Inv_step op s HI He) Hv Hk1) as (j2 & Hk2 & Hid2 & Hr2).
  exists j2. split; [done|]. split; [|lia].
  destruct Hid1 as (? & ? & ? & ?), Hid2 as (? & ? & ? & ?).
  repeat split; congruence.
Qed.

(** A recurring job is not [done] between two steps. *)
Lemma recurring_step op s :
  Inv s →
  (∀ k j, jobs s !! k = Some j → recurring j = true → status j ≠ done) →
  enabled op s = true →
  ∀ k j, jobs (step op s) !! k = Some j → recurring j = true → status j ≠ done.
Proof.
  intros HI HP He.
  destruct (step_shape_of op s HI He)
    as [now k0 data Hk0|k0 j0 Hk0|op _|now t0 k0 h' j0 Hpop Hdue Hk0
        |k0 o now j0 Hin Hk0 Hid Hp Hf]; simpl; try done.
  - intros k j. rewrite lookup_insert. case_decide; [|apply HP].
    by intros [= <-].
  - intros k j. rewrite lookup_insert. case_decide; [|apply HP].
    by intros [= <-].
  - intros k j. rewrite lookup_insert. case_decide; [|apply HP].
    intros [= <-]. unfold final_job.
    destruct o; [destruct (recurring j0) eqn:Hr|destruct (_ <=? _)]; simpl;
      try done. congruence.
Qed.

(** Heap entries and threads, taken together, name each job at most once. *)
Lemma count_le_1_NoDup (l : list string) :
  (∀ k, count_thread k l ≤ 1)%nat → NoDup l.
Proof.
  induction l as [|x l IH]; intros Hc; [constructor|].
  constructor.
  - intros Hin%count_thread_pos. specialize (Hc x).
    rewrite count_thread_cons, decide_True in Hc by done. lia.
  - apply IH. intros k. specialize (Hc k). rewrite count_thread_cons in Hc.
    destruct (decide _); lia.
Qed.

Lemma count_thread_app k (l1 l2 : list string) :
  count_thread k (l1 ++ l2) = (count_thread k l1 + count_thread k l2)%nat.
Proof. unfold count_thread. by rewrite filter_app, length_app. Qed.

Lemma count_id_ids k (h : list Entry) : count_id k h = count_thread k h.*2.
Proof.
  induction h as [|e h IH]; [done|].
  rewrite fmap_cons, count_id_cons, count_thread_cons, IH. done.
Qed.

(** Between two steps a recurring job is never [done]. *)
Lemma recurring_not_done (t : gmap string Row) ops k j :
  valid ops (boot t) = true →
  jobs (run ops (boot t)) !! k = Some j →
  recurring j = true →
  status j ≠ done.
Proof.
  intros Hv. revert k j.
  apply (run_invariant
           (λ s, ∀ k j, jobs s !! k = Some j → recurring j = true → status j ≠ done));
    try done.
  - intros s op HI HP He. by apply recurring_step.
  - apply Inv_boot.
  - intros k j Hk _. by apply (boot_not_done t k).
Qed.

(** A process started on the table a run leaves finds every job that is not
    [done] as it was, with one entry. *)
Lemma restart_lookup (t : gmap string Row) ops k j :
  valid ops (boot t) = true →
  jobs (run ops (boot t)) !! k = Some j →
  status j ≠ done →
  jobs (restart (run ops (boot t))) !! k = Some j ∧
  pending (restart (run ops (boot t))) k = 1%nat.
Proof.
  intros Hv Hk Hst. destruct (mirrored_run t ops Hv) as [Hm _].
  destruct (Hm k j Hk) as (r & Hr & Hj).
  set (s := run ops (boot t)) in *.
  change (restart s) with (boot (db s)).
  assert (jobs (boot (db s)) !! k = Some j) as Hb.
  { rewrite (proj1 (boot_lookup (db s) k)), Hr.
    rewrite decide_False; [by rewrite Hj|]. by rewrite <-Hj in Hst. }
  split; [done|]. by rewrite (proj2 (boot_lookup (db s) k)), Hb.
Qed.

(** A successful run is its first commit followed by the rest. *)
Lemma execute_job_Success_split now k s :
  execute_job Success now k s = reschedule now k (mark_done k s).
Proof.
  unfold execute_job, reschedule, mark_done, update_job.
  cbn [jobs with_threads]. destruct (jobs s !! k) as [j|] eqn:Hk.
  - cbn [jobs heap db db_log threads with_jobs with_heap with_threads
         persist_job]. rewrite lookup_alter_eq, Hk. cbn [fmap option_fmap option_map].
    cbn [recurring set_status id interval].
    by destruct (recurring j).
  - cbn [jobs threads with_threads]. by rewrite Hk.
Qed.

End Jobs.

Section JobTheorems.

Implicit Types (s : State) (k : string) (j : Job) (t : gmap string Row).

(** A creation, a cancellation and the end of a run of [execute_job] touch the
    job they are about and nothing of any other job: not its dictionary, not
    its row in the table, not its heap entries, not its threads. *)
Theorem step_isolated (t : gmap string Row) (ops : list Op) (op : Op)
    (k k' : string) :
  valid ops (boot t) = true →
  let s := run ops (boot t) in
  enabled op s = true →
  op_target op = Some k →
  k' ≠ k →
  get_job k' (step op s) = get_job k' s ∧
  db (step op s) !! k' = db s !! k' ∧
  pending (step op s) k' = pending s k' ∧
  inflight (step op s) k' = inflight s k'.
Proof.
  intros Hv s He Htgt Hne.
  pose proof (Inv_run ops (boot t) (Inv_boot t) Hv) as HI. fold s in HI.
  unfold get_job, pending, inflight.
  destruct (step_shape_of op s HI He)
    as [now k0 data Hk0|k0 j0 Hk0|op _|now t0 k0 h' j0 Hpop Hdue Hk0
        |k0 o now j0 Hin Hk0 Hid Hp Hf]; simpl in *; simplify_eq; try done.
  - rewrite !lookup_insert_ne, count_id_heappush by done. simpl.
    by rewrite decide_False by done.
  - by rewrite !lookup_insert_ne by done.
  - rewrite !lookup_insert_ne, count_thread_end_other by done.
    split_and!; try done. destruct (requeues o j0); [|done].
    rewrite count_id_heappush. simpl. by rewrite decide_False by done.
Qed.

Lemma step_isolated_witness :
  let ops := [OpCreate 0 "a" (delay_only 0); OpCreate 0 "b" (delay_only 5);
              OpTick 0] in
  let s := run ops (boot ∅) in
  let op := OpFinish "a" Failure 1 in
  valid ops (boot ∅) = true ∧
  enabled op s = true ∧
  op_target op = Some "a"%string ∧
  "b"%string ≠ "a"%string ∧
  get_job "b" (step op s) = get_job "b" s ∧
  db (step op s) !! "b"%string = db s !! "b"%string ∧
  pending (step op s) "b" = pending s "b" ∧
  inflight (step op s) "b" = inflight s "b".
Proof.
  intros ops s op.
  assert (valid ops (boot ∅) = true) as H1 by by vm_compute.
  assert (enabled op s = true) as H2 by by vm_compute.
  assert (op_target op = Some "a"%string) as H3 by reflexivity.
  assert ("b"%string ≠ "a"%string) as H4 by done.
  repeat (split; [assumption|]).
  exact (step_isolated ∅ ops op "a" "b" H1 H2 H3 H4).
Defined.

(** Once a job is in [jobs] it stays there, under the same id, with the same
    payload, the same [recurring] flag and the same interval, whatever steps
    follow; its [retries] never goes down; and a cancellation of it is never
    answered "not found". *)
Theorem job_identity_kept (t : gmap string Row) (ops1 ops2 : list Op)
    (k : string) (j : Job) :
  valid (ops1 ++ ops2) (boot t) = true →
  get_job k (run ops1 (boot t)) = Some j →
  let s := run (ops1 ++ ops2) (boot t) in
  (delete_job k s).2 = Ok ∧
  ∃ j', get_job k s = Some j' ∧
        id j' = id j ∧ payload j' = payload j ∧
        recurring j' = recurring j ∧ interval j' = interval j ∧
        retries j ≤ retries j'.
Proof.
  intros Hv Hk s. subst s. rewrite valid_app in Hv.
  apply andb_true_iff in Hv as [Hv1 Hv2]. rewrite run_app.
  pose proof (Inv_run ops1 (boot t) (Inv_boot t) Hv1) as HI.
  destruct (run_identity ops2 _ k j HI Hv2 Hk) as (j' & Hk' & (? & ? & ? & ?) & ?).
  split; [by rewrite (delete_job_found k _ j' Hk')|].
  exists j'. by split_and!.
Qed.

Lemma job_identity_kept_witness :
  let ops1 := [OpCreate 0 "a" (mkRequest (Some 0) (Some "mail"%string)
                                         (Some true) (Some 10))] in
  let ops2 := [OpTick 0; OpFinish "a" Failure 1; OpCancel "a"; OpTick 3;
               OpFinish "a" Success 4] in
  let j := mkJob "a" 0 "mail" scheduled 0 true 10 in
  valid (ops1 ++ ops2) (boot ∅) = true ∧
  get_job "a" (run ops1 (boot ∅)) = Some j ∧
  get_job "a" (run (ops1 ++ ops2) (boot ∅))
    = Some (mkJob "a" 14 "mail" scheduled 1 true 10) ∧
  (delete_job "a" (run (ops1 ++ ops2) (boot ∅))).2 = Ok ∧
  ∃ j', get_job "a" (run (ops1 ++ ops2) (boot ∅)) = Some j' ∧
        id j' = id j ∧ payload j' = payload j ∧
        recurring j' = recurring j ∧ interval j' = interval j ∧
        retries j ≤ retries j'.
Proof.
  intros ops1 ops2 j.
  assert (valid (ops1 ++ ops2) (boot ∅) = true) as H1 by by vm_compute.
  assert (get_job "a" (run ops1 (boot ∅)) = Some j) as H2 by by vm_compute.
  repeat (split; [assumption|]). split; [by vm_compute|].
  exact (job_identity_kept ∅ ops1 ops2 "a" j H1 H2).
Defined.

(** An id that startup did not load and that no creation drew is unknown
    for good: [GET] finds nothing, and [DELETE] answers "not found" and
    leaves the state, table included, as it is. *)
Theorem unknown_id_not_found (t : gmap string Row) (ops : list Op) (k : string) :
  valid ops (boot t) = true →
  get_job k (boot t) = None →
  never_created k ops = true →
  let s := run ops (boot t) in
  get_job k s = None ∧ delete_job k s = (s, NotFound).
Proof.
  intros Hv Hk Hnc s.
  assert (jobs s !! k = None) as Hnone.
  { subst s. revert Hv Hk Hnc. generalize (Inv_boot t). generalize (boot t).
    induction ops as [|op ops IH]; intros s HI Hv Hk Hnc; [done|].
    simpl in Hv, Hnc. apply andb_true_iff in Hv as [He Hv].
    apply andb_true_iff in Hnc as [Hc Hnc]. apply negb_true_iff in Hc.
    simpl. apply IH; [by apply Inv_step|done| |done].
    unfold get_job in *.
    destruct (step_shape_of op s HI He)
      as [now k0 data Hk0|k0 j0 Hk0|op _|now t0 k0 h' j0 Hpop Hdue Hk0
          |k0 o now j0 Hin Hk0 Hid Hp Hf]; simpl in *; try done.
    - apply bool_decide_eq_false in Hc. by rewrite lookup_insert_ne.
    - rewrite lookup_insert_ne by congruence. done.
    - rewrite lookup_insert_ne by congruence. done. }
  split; [done|]. unfold delete_job. by rewrite Hnone.
Qed.

Lemma unknown_id_not_found_witness :
  let s := run four_failures (boot mixed_table) in
  valid four_failures (boot mixed_table) = true ∧
  get_job "d" (boot mixed_table) = None ∧
  never_created "d" four_failures = true ∧
  get_job "d" s = None ∧ delete_job "d" s = (s, NotFound).
Proof.
  intros s.
  assert (valid four_failures (boot mixed_table) = true) as H1 by by vm_compute.
  assert (get_job "d" (boot mixed_table) = None) as H2 by by vm_compute.
  assert (never_created "d" four_failures = true) as H3 by by vm_compute.
  split; [exact H1|]. split; [exact H2|]. split; [exact H3|].
  exact (unknown_id_not_found mixed_table four_failures "d" H1 H2 H3).
Defined.





(** The program never writes the status [running]: when no row of the table
    has it at startup, no job ever has it. *)
Theorem never_running (t : gmap string Row) (ops : list Op)
    (k : string) (j : Job) :
  (∀ k r, t !! k = Some r → row_status r ≠ running) →
  valid ops (boot t) = true →
  get_job k (run ops (boot t)) = Some j →
  status j ≠ running.
Proof.
  intros Ht Hv. revert k j.
  apply (run_invariant
           (λ s, ∀ k j, jobs s !! k = Some j → status j ≠ running)); try done.
  - intros s op HI HP He k j Hk Hr.
    destruct (step_running op s k j Hk Hr) as (j0 & Hk0 & Hr0).
    by apply (HP k j0).
  - apply Inv_boot.
  - intros k j. rewrite (proj1 (boot_lookup t k)).
    destruct (t !! k) as [r|] eqn:Hr; [|done].
    destruct (decide _); [done|]. intros [= <-]. simpl. by apply (Ht k).
Qed.

Lemma never_running_witness :
  let j := mkJob "a" 9 EmptyString dead 4 false 0 in
  (∀ k r, (∅ : gmap string Row) !! k = Some r → row_status r ≠ running) ∧
  valid four_failures (boot ∅) = true ∧
  get_job "a" (run four_failures (boot ∅)) = Some j ∧
  status j ≠ running.
Proof.
  intros j.
  assert (∀ k r, (∅ : gmap string Row) !! k = Some r → row_status r ≠ running)
    as H1 by (intros k r; by rewrite lookup_empty).
  assert (valid four_failures (boot ∅) = true) as H2 by by vm_compute.
  assert (get_job "a" (run four_failures (boot ∅)) = Some j) as H3
    by by vm_compute.
  repeat (split; [assumption|]).
  exact (never_running ∅ four_failures "a" j H1 H2 H3).
Defined.

(** [list_jobs] lists exactly the jobs that [get_job] finds, each once: a job
    is listed if and only if [GET /jobs/id] with its id returns it, no two
    listed jobs share an id, and the listing is as long as [jobs] is large. *)
Theorem list_jobs_complete (t : gmap string Row) (ops : list Op) :
  valid ops (boot t) = true →
  let s := run ops (boot t) in
  (∀ j, j ∈ list_jobs s ↔ get_job (id j) s = Some j) ∧
  NoDup (id <$> list_jobs s) ∧
  length (list_jobs s) = size (jobs s).
Proof.
  intros Hv s. pose proof (Inv_run ops (boot t) (Inv_boot t) Hv) as HI.
  fold s in HI. unfold list_jobs, get_job. split_and!.
  - intros j. rewrite list_elem_of_fmap. split.
    + intros ([k j'] & -> & Hin%elem_of_map_to_list). simpl.
      by rewrite (inv_id s HI k j' Hin).
    + intros Hj. exists (id j, j). split; [done|]. by apply elem_of_map_to_list.
  - assert (id <$> (map_to_list (jobs s)).*2 = (map_to_list (jobs s)).*1) as ->.
    { rewrite <-list_fmap_compose. apply list_fmap_ext.
      intros i [k j] Hin%list_elem_of_lookup_2%elem_of_map_to_list. simpl.
      by apply (inv_id s HI). }
    apply NoDup_fst_map_to_list.
  - by rewrite length_fmap, length_map_to_list.
Qed.

Lemma list_jobs_complete_witness :
  let s := run four_failures (boot mixed_table) in
  valid four_failures (boot mixed_table) = true ∧
  length (list_jobs s) = 5%nat ∧
  (∀ j, j ∈ list_jobs s ↔ get_job (id j) s = Some j) ∧
  NoDup (id <$> list_jobs s) ∧
  length (list_jobs s) = size (jobs s).
Proof.
  intros s.
  assert (valid four_failures (boot mixed_table) = true) as H1 by by vm_compute.
  split; [exact H1|]. split; [by vm_compute|].
  exact (list_jobs_complete mixed_table four_failures H1).
Defined.

(** The heap and the threads never outgrow the jobs: between two steps the
    number of heap entries plus the number of running threads is at most the
    number of jobs in [jobs]. *)
Theorem queue_bounded_by_jobs (t : gmap string Row) (ops : list Op) :
  valid ops (boot t) = true →
  let s := run ops (boot t) in
  (length (heap s) + length (threads s) ≤ size (jobs s))%nat.
Proof.
  intros Hv s. pose proof (Inv_run ops (boot t) (Inv_boot t) Hv) as HI.
  fold s in HI.
  assert (length (heap s) + length (threads s)
          = length ((heap s).*2 ++ threads s))%nat as ->
    by by rewrite length_app, length_fmap.
  assert (size (jobs s) = length (map_to_list (jobs s)).*1) as ->
    by by rewrite length_fmap, length_map_to_list.
  apply submseteq_length, NoDup_submseteq.
  - apply count_le_1_NoDup. intros k.
    rewrite count_thread_app, <-count_id_ids.
    destruct (jobs s !! k) as [j|] eqn:Hk.
    + destruct (inv_once s HI k j Hk) as (Hle & _). exact Hle.
    + destruct (unknown_quiet s k HI Hk) as [Hp Hf].
      unfold pending, inflight in *. lia.
  - intros k [Hk|Hk]%elem_of_app.
    + apply list_elem_of_fmap in Hk as (e & -> & He).
      destruct (inv_heap s HI e He) as [j Hj].
      apply list_elem_of_fmap. exists (e.2, j). split; [done|].
      by apply elem_of_map_to_list.
    + destruct (inv_threads s HI k Hk) as [j Hj].
      apply list_elem_of_fmap. exists (k, j). split; [done|].
      by apply elem_of_map_to_list.
Qed.

Lemma queue_bounded_by_jobs_witness :
  let ops := [OpCreate 0 "a" (delay_only 0); OpCreate 0 "b" (delay_only 5);
              OpTick 0] in
  let s := run ops (boot mixed_table) in
  valid ops (boot mixed_table) = true ∧
  length (heap s) = 5%nat ∧ length (threads s) = 1%nat ∧ size (jobs s) = 6%nat ∧
  (length (heap s) + length (threads s) ≤ size (jobs s))%nat.
Proof.
  intros ops s.
  assert (valid ops (boot mixed_table) = true) as H1 by by vm_compute.
  split; [exact H1|]. split; [by vm_compute|]. split; [by vm_compute|].
  split; [by vm_compute|]. exact (queue_bounded_by_jobs mixed_table ops H1).
Defined.

End JobTheorems.
